(** * ozflux_parallel: weighted job orchestration and progress aggregation

    A shallow embedding of [ozflux_parallel.py] (classes [_Job] and
    [JobManager]) and of the part of [ozflux_logging.py] it calls
    ([log_progress]), followed by the properties of the specification that
    were checked against it.

    Conventions of the embedding.
    - Python [int] is [Z]; Python [float] is idealised as an exact rational
      [Q] (no rounding, no overflow, no NaN, no infinities): an arithmetic
      expression of the source denotes its exact value, and an [int]
      converts to a [float] exactly, whatever its size.
    - The wall clock is an input: the successive readings of
      [datetime.now()] are given by a function carried by the state.
    - A method is a function of the explicit program state [state] that
      returns an [outcome]: it returns, it raises, or it never comes back.
    - A work function is opaque Python code; it is represented by the tree
      of its interactions with the progress callback ([work]).
    - Attributes that the source reads but that [__init__] never assigns
      ([_job_weights], [_readers]) are optional fields, [None] meaning
      that the attribute does not exist on the object. *)

From Stdlib Require Import String List ZArith QArith Bool Lia Lqa.
Import ListNotations.

Local Open Scope Z_scope.

(** ** Exceptions *)

Inductive exn : Type :=
| TypeError (msg : string)
| AttributeError (msg : string)
| ZeroDivisionError
| IndexError
| ValueError
| OSError
| AssertionError
| InvalidArgument      (* named by the specification only: no statement of the source raises it *)
| WorkFailure (n : nat)  (* whatever a work function raises on its own account *)
| OverflowError.

(** Raised by [with] on an object without [__enter__] and [__exit__]
    (an [AttributeError] before Python 3.11). *)
Definition not_a_context_manager : exn :=
  TypeError "'bool' object does not support the context manager protocol".
Definition missing_argument : exn :=
  TypeError "_Job.__init__() missing 1 required positional argument: 'progress_writer'".
Definition cannot_unpack : exn :=
  TypeError "cannot unpack non-iterable object".
Definition no_job_weights : exn :=
  AttributeError "'JobManager' object has no attribute '_job_weights'".
Definition no_readers : exn :=
  AttributeError "'JobManager' object has no attribute '_readers'".

(** ** Work functions

    [func: Callable[[Callable[[float], None]], None]].  A work function
    either returns, raises, or invokes the callback with a progress value
    and goes on according to what the callback did ([None]: it returned,
    [Some e]: it raised [e], which the function may handle or not). *)

Inductive work : Type :=
| Done
| Fail (e : exn)
| Report (p : Q) (k : option exn -> work).

(** A work function that lets an exception of the callback escape. *)
Definition propagate (k : work) (r : option exn) : work :=
  match r with
  | None => k
  | Some e => Fail e
  end.

(** ** Data *)

(** A connection object (one end of a pipe). *)
Definition conn := nat.

(** What [multiprocessing.Process] knows about the process. *)
Inductive proc_state : Type :=
| Initial       (* created, [start()] not called yet *)
| Started       (* [start()] has been called, the process has not been seen to exit *)
| Finished      (* the process has exited and has not been joined *)
| Joined.       (* [join()] has returned *)

Record _Job : Type := mk_Job {
  id : Z;
  weight : Z;
  func : work;
  progress_reader : conn;
  progress_writer : conn;
  progress : Q;
  proc : proc_state
}.

Record JobManager : Type := mkJobManager {
  allow_parallel : bool;
  _total_weight : Z;
  _jobs : list _Job;
  _lock : nat;                        (* value of the BoundedSemaphore(1) *)
  _job_weights : option (list Z);     (* never assigned by __init__ *)
  _readers : option (list conn)       (* never assigned by __init__ *)
}.

(** The globals of [ozflux_logging] that [log_progress] depends on, the
    sequence of values [log_progress] has been called with and how each
    of these calls ended ([None]: it returned), and the wall clock:
    [clock n] is the [n]-th reading of
    [datetime.now() - _progress_reporting_start], in microseconds. *)
Record Logging : Type := mkLogging {
  _warnings_as_errors : bool;
  _show_progress : bool;
  reported : list Q;
  outcomes : list (option exn);
  clock : nat -> Z;
  ticks : nat               (* readings of the clock so far *)
}.

Record state : Type := mkState {
  self : JobManager;
  logging : Logging;
  pipes : nat;            (* pipes created so far: pipe k has ends 2k (read) and 2k+1 (write) *)
  closed : list conn;     (* connection objects closed in this process *)
  invoked : list Z;       (* ids of the jobs whose work function was called in this process *)
  callbacks : list (nat * Q)
                          (* every invocation of a local progress callback so far:
                             position of the job in the job list, value passed *)
}.

Definition set_self (m : JobManager) (s : state) : state :=
  mkState m (logging s) (pipes s) (closed s) (invoked s) (callbacks s).

Definition set_lock (n : nat) (s : state) : state :=
  let m := self s in
  set_self (mkJobManager (allow_parallel m) (_total_weight m) (_jobs m) n
                         (_job_weights m) (_readers m)) s.

Definition set_total_weight (w : Z) (s : state) : state :=
  let m := self s in
  set_self (mkJobManager (allow_parallel m) w (_jobs m) (_lock m)
                         (_job_weights m) (_readers m)) s.

Definition set_jobs (js : list _Job) (s : state) : state :=
  let m := self s in
  set_self (mkJobManager (allow_parallel m) (_total_weight m) js (_lock m)
                         (_job_weights m) (_readers m)) s.

Definition set_job_weights (ws : list Z) (s : state) : state :=
  let m := self s in
  set_self (mkJobManager (allow_parallel m) (_total_weight m) (_jobs m) (_lock m)
                         (Some ws) (_readers m)) s.

Definition set_readers (rs : list conn) (s : state) : state :=
  let m := self s in
  set_self (mkJobManager (allow_parallel m) (_total_weight m) (_jobs m) (_lock m)
                         (_job_weights m) (Some rs)) s.

Definition set_logging (g : Logging) (s : state) : state :=
  mkState (self s) g (pipes s) (closed s) (invoked s) (callbacks s).

Definition set_progress (q : Q) (j : _Job) : _Job :=
  mk_Job (id j) (weight j) (func j) (progress_reader j) (progress_writer j) q (proc j).

Definition set_proc (p : proc_state) (j : _Job) : _Job :=
  mk_Job (id j) (weight j) (func j) (progress_reader j) (progress_writer j) (progress j) p.

(** In-place update of the object stored at position [i] of a list. *)
Fixpoint update {A : Type} (i : nat) (f : A -> A) (l : list A) : list A :=
  match l, i with
  | [], _ => []
  | x :: l', O => f x :: l'
  | x :: l', S i' => x :: update i' f l'
  end.

(** ** Outcomes *)

Inductive blocked_on : Type :=
| OnSemaphore     (* acquire() on a semaphore whose value is 0 *)
| OnPoll          (* the wait loop is still polling when the observations end *)
| OnJoin.         (* join() on a process that has not been seen to exit *)

Inductive outcome (A : Type) : Type :=
| Returned (a : A) (s : state)
| Raised (e : exn) (s : state)
| Blocked (b : blocked_on) (s : state).

Arguments Returned {A} a s.
Arguments Raised {A} e s.
Arguments Blocked {A} b s.

Definition M (A : Type) : Type := state -> outcome A.

Definition ret {A : Type} (a : A) : M A := fun s => Returned a s.
Definition raise {A : Type} (e : exn) : M A := fun s => Raised e s.
Definition bind {A B : Type} (c : M A) (k : A -> M B) : M B :=
  fun s =>
    match c s with
    | Returned a s' => k a s'
    | Raised e s' => Raised e s'
    | Blocked b s' => Blocked b s'
    end.

Notation "x <- c ;; k" := (bind c (fun x => k))
  (at level 61, c at next level, right associativity).
Notation "c ;; k" := (bind c (fun _ => k))
  (at level 61, right associativity).

Definition final {A : Type} (o : outcome A) : state :=
  match o with
  | Returned _ s => s
  | Raised _ s => s
  | Blocked _ s => s
  end.

Definition returns {A : Type} (o : outcome A) : bool :=
  match o with
  | Returned _ _ => true
  | _ => false
  end.

(** ** ozflux_logging.log_progress

    [datetime.timedelta] holds a whole number of microseconds whose days
    have magnitude at most 999999999; an operation whose result is outside
    that range raises [OverflowError]. *)

Definition MIN_TIMEDELTA : Z := - 999999999 * 86400000000.
Definition MAX_TIMEDELTA : Z := 1000000000 * 86400000000 - 1.

Definition timedelta (microseconds : Z) : exn + Z :=
  if (MIN_TIMEDELTA <=? microseconds) && (microseconds <=? MAX_TIMEDELTA)
  then inr microseconds
  else inl OverflowError.

(** The integer nearest to [a / b], ties going to the even one ([b] is
    not zero). *)
Definition divide_nearest (a b : Z) : Z :=
  let a' := if b <? 0 then - a else a in
  let b' := Z.abs b in
  let q := a' / b' in
  let r := a' mod b' in
  if 2 * r <? b' then q
  else if b' <? 2 * r then q + 1
  else if Z.even q then q else q + 1.

(** [timedelta / float]: the float is taken as the ratio of two integers
    ([float.as_integer_ratio]) and the quotient is rounded to the nearest
    microsecond. *)
Definition timedelta_truediv (microseconds : Z) (x : Q) : exn + Z :=
  if Qeq_bool x 0 then inl ZeroDivisionError
  else timedelta (divide_nearest (microseconds * Zpos (Qden x)) (Qnum x)).

(** [timedelta - timedelta(microseconds = timedelta.microseconds)]: the
    time rounded down to a whole second (this cannot leave the range). *)
Definition whole_seconds (microseconds : Z) : Z :=
  microseconds - microseconds mod 1000000.

(** The estimate of the remaining time, from the reading [now] of the
    clock: [elapsed], [total = elapsed / progress],
    [remaining = total - elapsed]. *)
Definition remaining_time (now : Z) (progress : Q) : exn + Z :=
  let elapsed := whole_seconds now in
  match timedelta_truediv elapsed progress with
  | inl e => inl e
  | inr total =>
      match timedelta (total - elapsed) with
      | inl e => inl e
      | inr remaining => inr (whole_seconds remaining)
      end
  end.

(** The state in which a call [log_progress(progress)] ends: the call and
    its outcome [o] are recorded, [n] readings of the clock have been
    made. *)
Definition logged (progress : Q) (o : option exn) (n : nat) (s : state) : state :=
  let g := logging s in
  set_logging (mkLogging (_warnings_as_errors g) (_show_progress g)
                         (reported g ++ [progress]) (outcomes g ++ [o])
                         (clock g) n) s.

(** A call that ends as [o] says, in state [s]. *)
Definition ended (o : option exn) (s : state) : outcome unit :=
  match o with
  | None => Returned tt s
  | Some e => Raised e s
  end.

(** [log_progress(progress)].  [progress > 1] goes through [log_warning],
    which raises [ValueError] when warnings are errors; the clock is read
    next; [elapsed / progress] raises [ZeroDivisionError] when [progress]
    is zero and [OverflowError] when the quotient is no [timedelta].  What
    is printed is not part of this model. *)
Definition log_progress (progress : Q) : M unit :=
  fun s =>
    let g := logging s in
    if negb (Qle_bool progress 1) && _warnings_as_errors g
    then Raised ValueError (logged progress (Some ValueError) (ticks g) s)
    else
      match remaining_time (clock g (ticks g)) progress with
      | inl e => Raised e (logged progress (Some e) (S (ticks g)) s)
      | inr _ => Returned tt (logged progress None (S (ticks g)) s)
      end.

Arguments log_progress : simpl never.

(** ** _Job *)

(** [_Job.__init__(self, id, weight, func, progress_reader, progress_writer)] *)
Definition _Job__init__ (id weight : Z) (func : work)
           (progress_reader progress_writer : conn) : _Job :=
  mk_Job id weight func progress_reader progress_writer 0%Q Initial.

(** Python's true division of numbers. *)
Definition truediv (a b : Q) : M Q :=
  if Qeq_bool b 0 then raise ZeroDivisionError else ret (a / b)%Q.

(** [_Job._progress_local(self, progress, start, total_weight)], [self]
    being the job at position [i] of the job list (a position outside the
    list denotes no object; [run_local] never passes one). *)
Definition _progress_local (i : nat) (p : Q) (start total_weight : Z) : M unit :=
  fun s =>
    let s1 := set_jobs (update i (set_progress p) (_jobs (self s))) s in
    match nth_error (_jobs (self s1)) i with
    | None => Raised IndexError s
    | Some job =>
        (overall <- truediv (inject_Z start + inject_Z (weight job) * p)%Q
                            (inject_Z total_weight) ;;
         log_progress overall) s1
    end.

(** Calling a work function with a callback: the callback's outcome is
    handed back to the function. *)
Fixpoint call (f : work) (callback : Q -> M unit) (s : state) : outcome unit :=
  match f with
  | Done => Returned tt s
  | Fail e => Raised e s
  | Report p k =>
      match callback p s with
      | Returned _ s' => call (k None) callback s'
      | Raised e s' => call (k (Some e)) callback s'
      | Blocked b s' => Blocked b s'
      end
  end.

(** Bookkeeping of the model, not statements of the source: the call of
    a work function and the invocation of a local callback are recorded. *)
Definition note_invoked (i : Z) : M unit :=
  fun s => Returned tt (mkState (self s) (logging s) (pipes s) (closed s)
                                (invoked s ++ [i]) (callbacks s)).

Definition note_callback (i : nat) (p : Q) : M unit :=
  fun s => Returned tt (mkState (self s) (logging s) (pipes s) (closed s)
                                (invoked s) (callbacks s ++ [(i, p)])).

(** The state in which a local callback of the job at position [i],
    invoked with [p], calls [log_progress]. *)
Definition stored (i : nat) (p : Q) (s : state) : state :=
  mkState (mkJobManager (allow_parallel (self s)) (_total_weight (self s))
                        (update i (set_progress p) (_jobs (self s)))
                        (_lock (self s)) (_job_weights (self s)) (_readers (self s)))
          (logging s) (pipes s) (closed s) (invoked s) (callbacks s ++ [(i, p)]).

(** [_Job.run_local(self, start, total_weight)] *)
Definition run_local (i : nat) (start total_weight : Z) : M unit :=
  fun s =>
    match nth_error (_jobs (self s)) i with
    | None => Raised IndexError s
    | Some job =>
        (note_invoked (id job) ;;
         call (func job)
              (fun p => note_callback i p ;;
                        _progress_local i p start total_weight)) s
    end.

(** [_Job.run(self)] is executed in the worker process, on the worker's
    own copy of the job object and of the write end of the pipe. *)
Record worker : Type := mkWorker {
  job : _Job;
  writer_closed : bool;          (* the worker's copy of progress_writer has been closed *)
  sent : list (Q * Z)            (* messages written to the pipe, oldest first *)
}.

(** [self.progress_writer.send((p, self.id))] *)
Definition send (p : Q) (w : worker) : option exn * worker :=
  if writer_closed w then (Some OSError, w)
  else (None, mkWorker (job w) false (sent w ++ [(p, id (job w))])).

(** [self.progress_writer.close()] *)
Definition worker_close (w : worker) : worker :=
  mkWorker (job w) true (sent w).

Fixpoint worker_call (f : work) (w : worker) : option exn * worker :=
  match f with
  | Done => (None, w)
  | Fail e => (Some e, w)
  | Report p k => let (r, w') := send p w in worker_call (k r) w'
  end.

Definition run (w : worker) : option exn * worker :=
  match worker_call (func (job w)) w with
  | (None, w') => (None, worker_close w')
  | (Some e, w') => (Some e, w')
  end.

(** The worker process ([multiprocessing.Process._bootstrap] in the
    child): [run()] is called; whether it returns or raises, the process
    then exits, with exit code 0 or 1, and the operating system closes the
    handles it holds, the write end of the pipe among them. *)
Definition bootstrap (w : worker) : Z * worker :=
  let (r, w') := run w in
  (match r with None => 0 | Some _ => 1 end, worker_close w').

(** ** JobManager *)

(** [JobManager.__init__(self, allow_parallel)] *)
Definition JobManager__init__ (allow_parallel : bool) : JobManager :=
  mkJobManager allow_parallel 0 [] 1 None None.

(** The program state right after [JobManager(allow_parallel)]. *)
Definition fresh (allow_parallel : bool) (g : Logging) : state :=
  mkState (JobManager__init__ allow_parallel) g 0 [] [] [].

Definition modify (f : state -> state) : M unit :=
  fun s => Returned tt (f s).

(** [BoundedSemaphore.acquire()] with its default arguments: blocks while
    the value is 0, otherwise decrements it and returns [True]. *)
Definition acquire : M bool :=
  fun s =>
    match _lock (self s) with
    | O => Blocked OnSemaphore s
    | S n => Returned true (set_lock n s)
    end.

(** [BoundedSemaphore.release()], the bound being 1. *)
Definition release : M unit :=
  fun s =>
    match _lock (self s) with
    | O => Returned tt (set_lock 1 s)
    | S _ => Raised ValueError s
    end.

(** The objects a [with] statement of the source can be handed. *)
Inductive pyobj : Type :=
| PyBool (b : bool)
| PySemaphore.

(** [with ctx: suite].  A semaphore enters by acquiring and exits by
    releasing; a [bool] has neither [__enter__] nor [__exit__], so the
    statement raises before the suite is entered. *)
Definition with_ (ctx : pyobj) (suite : M unit) : M unit :=
  match ctx with
  | PyBool _ => raise not_a_context_manager
  | PySemaphore =>
      fun s =>
        match acquire s with
        | Returned _ s1 =>
            match suite s1 with
            | Returned _ s2 => release s2
            | Raised e s2 => (release ;; raise e) s2
            | Blocked b s2 => Blocked b s2
            end
        | Raised e s1 => Raised e s1
        | Blocked b s1 => Blocked b s1
        end
  end.

(** [seq[i]] for a Python list of length [len]: negative indices count
    from the end. *)
Definition py_index (len : nat) (i : Z) : option nat :=
  if (0 <=? i) && (i <? Z.of_nat len) then Some (Z.to_nat i)
  else if (- Z.of_nat len <=? i) && (i <? 0) then Some (Z.to_nat (Z.of_nat len + i))
  else None.

(** [sum([j.progress for j in self._jobs])] *)
Definition sum_progress (js : list _Job) : Q :=
  fold_left Qplus (map progress js) 0%Q.

(** [JobManager._progress_reporter(self, progress, id)] *)
Definition _progress_reporter (p : Q) (id : Z) : M unit :=
  fun s =>
    match py_index (length (_jobs (self s))) id with
    | None => Raised IndexError s
    | Some i =>
        match nth_error (_jobs (self s)) i with
        | None => Raised IndexError s
        | Some job =>
            (w <- truediv (inject_Z (weight job)) (inject_Z (_total_weight (self s))) ;;
             modify (fun s' => set_jobs (update i (set_progress (w * p)%Q) (_jobs (self s'))) s') ;;
             fun s' => log_progress (sum_progress (_jobs (self s'))) s') s
        end
    end.

(** Arguments of a constructor call. *)
Inductive arg : Type :=
| Int (z : Z)
| Func (f : work)
| Conn (c : conn).

(** [_Job(...)]: [__init__] has five required positional parameters after
    [self]; a call with fewer raises [TypeError]. *)
Definition new_Job (args : list arg) : M _Job :=
  match args with
  | [Int id; Int weight; Func f; Conn r; Conn w] => ret (_Job__init__ id weight f r w)
  | _ => raise missing_argument
  end.

(** [multiprocessing.connection.Pipe(duplex = False)] *)
Definition Pipe : M (conn * conn) :=
  fun s =>
    let k := pipes s in
    Returned ((2 * k)%nat, (2 * k + 1)%nat)
             (mkState (self s) (logging s) (S k) (closed s) (invoked s) (callbacks s)).

(** [connection.close()] in the manager's process. *)
Definition close (c : conn) : M unit :=
  modify (fun s => mkState (self s) (logging s) (pipes s) (c :: closed s)
                           (invoked s) (callbacks s)).

(** The suite of the [with] statement of [add_job]. *)
Definition add_job_suite (func : work) (weight : Z) : M unit :=
  fun s =>
    let job_id := Z.of_nat (length (_jobs (self s))) in
    match _job_weights (self s) with
    | None => Raised no_job_weights s
    | Some ws =>
        (modify (set_job_weights (ws ++ [weight])) ;;
         modify (fun s' => set_total_weight (_total_weight (self s') + weight) s') ;;
         rw <- Pipe ;;
         job <- new_Job [Int job_id; Func func; Conn (fst rw); Conn (snd rw)] ;;
         close (snd rw) ;;
         modify (fun s' => set_jobs (_jobs (self s') ++ [job]) s')) s
    end.

(** [JobManager.add_job(self, func, weight = 1)] *)
Definition add_job (func : work) (weight : Z) : M unit :=
  b <- acquire ;;
  with_ (PyBool b) (add_job_suite func weight).

(** The loop of [run_single_threaded]: [js] is what is left of the list
    being iterated, [i] the position of its head in [self._jobs]. *)
Fixpoint for_jobs (js : list _Job) (i : nat) (cum_weight : Z) (s : state) : outcome unit :=
  match js with
  | [] => Returned tt s
  | _ :: js' =>
      match run_local i cum_weight (_total_weight (self s)) s with
      | Returned _ s' =>
          match nth_error (_jobs (self s')) i with
          | Some job => for_jobs js' (S i) (cum_weight + weight job) s'
          | None => Raised IndexError s'
          end
      | Raised e s' => Raised e s'
      | Blocked b s' => Blocked b s'
      end
  end.

(** The suite of the [with] statement of [run_single_threaded]. *)
Definition run_single_threaded_suite : M unit :=
  fun s => for_jobs (_jobs (self s)) 0 0 s.

(** [JobManager.run_single_threaded(self)] *)
Definition run_single_threaded : M unit :=
  b <- acquire ;;
  with_ (PyBool b) run_single_threaded_suite.

(** What [recv()] can yield on a pipe of the manager.  The two values
    of a pair are taken to be a number and an integer, as in the messages
    that [_Job.run] sends. *)
Inductive message : Type :=
| Pair (progress : Q) (process_index : Z)
| NotIterable                  (* an object that cannot be unpacked at all *)
| WrongLength.                 (* a sequence that does not have two elements *)

(** What the manager observes of its workers.  The first four are the
    answers to one iteration of the wait loop on the polled reader:
    [poll()] is false; [poll()] is true and [recv()] yields an object;
    [poll()] is true and [recv()] raises [EOFError], which it does when
    the write end has been closed with nothing left to read, by [close()]
    or by the death of its owner ([abrupt]), and when an empty message is
    received; [poll()] is true and [recv()] raises another exception
    ([OSError] when the write end is closed in the middle of a message).
    The last one is not an answer: the worker of the job at position [k]
    exits, whatever the manager is doing. *)
Inductive observation : Type :=
| NoData
| Data (m : message)
| EndOfFile (abrupt : bool)
| RecvError (e : exn)
| Exited (k : nat).

(** What the read end of the pipe of a worker that has exited delivers,
    poll after poll: the messages sent, oldest first, then the end of the
    file. *)
Definition delivered (exit_code : Z) (w : worker) : list observation :=
  map (fun m => Data (Pair (fst m) (snd m))) (sent w)
  ++ [EndOfFile (negb (exit_code =? 0))].

(** [list.remove(x)]: removes the first occurrence. *)
Fixpoint remove_first (x : conn) (l : list conn) : list conn :=
  match l with
  | [] => []
  | y :: l' => if Nat.eqb x y then l' else y :: remove_first x l'
  end.

(** The process of the job at position [k] exits. *)
Definition exited (j : _Job) : _Job :=
  match proc j with
  | Started => set_proc Finished j
  | _ => j
  end.

Definition mark_exited (k : nat) (s : state) : state :=
  set_jobs (update k exited (_jobs (self s))) s.

(** The [while]/[for] loops of [_wait], driven by the observations.  [i]
    is the position of the list iterator: the [for] loop is exhausted when
    [i] is past the end of [self._readers], and the [while] test is then
    evaluated.  The loop hands back the observations it has not used. *)
Fixpoint wait_loop (obs : list observation) (i : nat) (s : state)
  : outcome (list observation) :=
  match _readers (self s) with
  | None => Raised no_readers s
  | Some [] => Returned obs s
  | Some (r0 :: rs0) =>
      let rs := r0 :: rs0 in
      let i' := if (i <? length rs)%nat then i else O in
      let reader := nth i' rs r0 in
      match obs with
      | [] => Blocked OnPoll s
      | NoData :: obs' => wait_loop obs' (S i') s
      | Data (Pair progress process_index) :: obs' =>
          match _progress_reporter progress process_index s with
          | Returned _ s' => wait_loop obs' (S i') s'
          | Raised e s' => Raised e s'
          | Blocked b s' => Blocked b s'
          end
      | Data NotIterable :: _ => Raised cannot_unpack s
      | Data WrongLength :: _ => Raised ValueError s
      | EndOfFile _ :: obs' =>
          wait_loop obs' (S i') (set_readers (remove_first reader rs) s)
      | RecvError e :: _ => Raised e s
      | Exited k :: obs' => wait_loop obs' i (mark_exited k s)
      end
  end.

(** [Process.join()] on the job at position [i]: it returns once the
    process has exited. *)
Definition join (i : nat) : M unit :=
  fun s =>
    match nth_error (_jobs (self s)) i with
    | None => Raised IndexError s
    | Some j =>
        match proc j with
        | Initial => Raised AssertionError s
        | Started => Blocked OnJoin s
        | _ => Returned tt (set_jobs (update i (set_proc Joined) (_jobs (self s))) s)
        end
    end.

(** The exits among the observations that are left when the wait loop is
    over: the manager is then in its joins and polls no more. *)
Fixpoint absorb_exits (obs : list observation) (s : state) : state :=
  match obs with
  | [] => s
  | Exited k :: obs' => absorb_exits obs' (mark_exited k s)
  | _ :: obs' => absorb_exits obs' s
  end.

(** [Process.start()] on the job at position [i]. *)
Definition start (i : nat) : M unit :=
  fun s =>
    match nth_error (_jobs (self s)) i with
    | None => Raised IndexError s
    | Some j =>
        match proc j with
        | Initial => Returned tt (set_jobs (update i (set_proc Started) (_jobs (self s))) s)
        | _ => Raised AssertionError s
        end
    end.

(** [for x in self._jobs: body], by position. *)
Fixpoint for_each (n : nat) (i : nat) (body : nat -> M unit) : M unit :=
  match n with
  | O => ret tt
  | S n' => body i ;; for_each n' (S i) body
  end.

(** [JobManager._wait(self)] *)
Definition _wait (obs : list observation) : M unit :=
  rest <- wait_loop obs 0 ;;
  modify (absorb_exits rest) ;;
  fun s => for_each (length (_jobs (self s))) 0 join s.

(** The suite of the [with] statement of [run_parallel]. *)
Definition run_parallel_suite (obs : list observation) : M unit :=
  (fun s => for_each (length (_jobs (self s))) 0 start s) ;;
  _wait obs.

(** [JobManager.run_parallel(self)] *)
Definition run_parallel (obs : list observation) : M unit :=
  b <- acquire ;;
  with_ (PyBool b) (run_parallel_suite obs).

(** ** Callers *)

(** The public operations of a [JobManager]. *)
Inductive operation : Type :=
| AddJob (func : work) (weight : Z)
| RunParallel (obs : list observation)
| RunSingleThreaded.

Definition perform (op : operation) : M unit :=
  match op with
  | AddJob f w => add_job f w
  | RunParallel obs => run_parallel obs
  | RunSingleThreaded => run_single_threaded
  end.

(** A caller that performs the operations in turn and handles whatever
    they raise; a call that does not come back ends the session. *)
Fixpoint session (ops : list operation) (s : state) : state :=
  match ops with
  | [] => s
  | op :: ops' =>
      match perform op s with
      | Returned _ s' => session ops' s'
      | Raised _ s' => session ops' s'
      | Blocked _ s' => s'
      end
  end.

(** [total_weight == sum(j.weight for j in jobs)] *)
Definition sum_weights (js : list _Job) : Z :=
  fold_right Z.add 0 (map weight js).

Definition weights_consistent (s : state) : Prop :=
  _total_weight (self s) = sum_weights (_jobs (self s)).

(** Everything but the semaphore is left as it was by a public operation. *)
Definition same_but_lock (s s' : state) : Prop :=
  _jobs (self s') = _jobs (self s) /\
  _total_weight (self s') = _total_weight (self s) /\
  _job_weights (self s') = _job_weights (self s) /\
  _readers (self s') = _readers (self s) /\
  logging s' = logging s /\
  invoked s' = invoked s /\
  (_lock (self s') <= _lock (self s))%nat.

(** What a call did, the state left aside. *)
Inductive kind : Type :=
| KReturned
| KRaised (e : exn)
| KBlocked (b : blocked_on).

Definition kind_of {A : Type} (o : outcome A) : kind :=
  match o with
  | Returned _ _ => KReturned
  | Raised e _ => KRaised e
  | Blocked b _ => KBlocked b
  end.

(** The logging globals as [ozflux_logging] sets them at import, no time
    passing. *)
Definition default_logging : Logging := mkLogging false false [] [] (fun _ => 0) 0.

(** ** The aggregate described by the specification *)

(** What registration fixes of a job: its progress field and its process
    state are the only parts that execution changes. *)
Definition shape (j : _Job) : Z * Z * work * conn * conn :=
  (id j, weight j, func j, progress_reader j, progress_writer j).

Arguments shape : simpl never.

(** [start_i = sum(weight of jobs 0..i-1)] *)
Definition start_of (js : list _Job) (i : nat) : Z :=
  sum_weights (firstn i js).

Definition weight_at (js : list _Job) (i : nat) : Z :=
  match nth_error js i with
  | Some j => weight j
  | None => 0
  end.

(** [overall = (start_i + job_i.weight * local_progress) / total_weight],
    for the invocation [c = (i, local_progress)]. *)
Definition overall (js : list _Job) (total_weight : Z) (c : nat * Q) : Q :=
  ((inject_Z (start_of js (fst c)) + inject_Z (weight_at js (fst c)) * snd c)
   / inject_Z total_weight)%Q.

Definition positive_weights (s : state) : Prop :=
  Forall (fun j => 0 < weight j) (_jobs (self s)).

(** A manager on which the jobs [js] are registered: the state that the
    documented behaviour of [add_job] leads to. *)
Definition registered (js : list _Job) (g : Logging) : state :=
  mkState (mkJobManager false (sum_weights js) js 1%nat None None) g 0%nat [] [] [].

(** Weights [[1, 3]]: job 0 reports local progress 1.0 once, job 1 never
    reports. *)
Definition jobs_1_3 : list _Job :=
  [ _Job__init__ 0 1 (Report 1 (propagate Done)) 0%nat 1%nat;
    _Job__init__ 1 3 Done 2%nat 3%nat ].

(** What a sequential run leaves untouched. *)
Definition seq_frame (s s' : state) : Prop :=
  map shape (_jobs (self s')) = map shape (_jobs (self s)) /\
  _total_weight (self s') = _total_weight (self s) /\
  _warnings_as_errors (logging s') = _warnings_as_errors (logging s).

(** ** The sequential run as the specification describes it

    Every registered job is executed in registration order; the callback
    passed to job [i] stores the local progress in the job and forwards
    [overall] to the sink, [start_i] being the sum of the weights of the
    jobs before [i] and the total weight the sum of all the weights. *)

Definition spec_callback (js : list _Job) (i : nat) (local_progress : Q) : M unit :=
  note_callback i local_progress ;;
  modify (fun s => set_jobs (update i (set_progress local_progress) (_jobs (self s))) s) ;;
  log_progress (overall js (sum_weights js) (i, local_progress)).

Fixpoint spec_jobs (js rest : list _Job) (i : nat) : M unit :=
  match rest with
  | [] => ret tt
  | j :: rest' =>
      note_invoked (id j) ;;
      call (func j) (spec_callback js i) ;;
      spec_jobs js rest' (S i)
  end.

Definition run_sequential : M unit :=
  fun s => spec_jobs (_jobs (self s)) (_jobs (self s)) 0 s.

(** The job list after the callback invocations [cbs], in order. *)
Definition store_all (cbs : list (nat * Q)) (js : list _Job) : list _Job :=
  fold_left (fun l c => update (fst c) (set_progress (snd c)) l) cbs js.

(** ** Two runs compared *)



(** From [s] to [s'] a sequential run has gone on: the record of the
    calls of [log_progress] has grown, what the run reads is as it was. *)
Definition extends (s s' : state) : Prop :=
  seq_frame s s' /\
  exists reports ends,
    reported (logging s') = reported (logging s) ++ reports /\
    outcomes (logging s') = outcomes (logging s) ++ ends.



(** ** Bounds on the progress of a job *)

(** [0 <= job.progress <= job.weight] *)
Definition job_bounded (j : _Job) : Prop :=
  (0 <= progress j)%Q /\ (progress j <= inject_Z (weight j))%Q.

Definition progress_bounded (s : state) : Prop :=
  Forall job_bounded (_jobs (self s)).

(** A work function that only ever reports local progress in [[0, 1]]. *)
Fixpoint unit_reports (f : work) : Prop :=
  match f with
  | Done => True
  | Fail _ => True
  | Report p k => (0 <= p)%Q /\ (p <= 1)%Q /\ forall r, unit_reports (k r)
  end.

Definition unit_jobs (s : state) : Prop :=
  Forall (fun j => unit_reports (func j)) (_jobs (self s)).

(** A message whose progress is in [[0, 1]]. *)
Definition unit_observation (o : observation) : Prop :=
  match o with
  | Data (Pair p _) => (0 <= p)%Q /\ (p <= 1)%Q
  | _ => True
  end.

(** The last value handed to [log_progress]. *)
Definition last_reported (s : state) : option Q :=
  hd_error (rev (reported (logging s))).

(** Weights [[1, 3]], both jobs reporting local progress 1.0 once. *)
Definition jobs_1_3_both : list _Job :=
  [ _Job__init__ 0 1 (Report 1 (propagate Done)) 0%nat 1%nat;
    _Job__init__ 1 3 (Report 1 (propagate Done)) 2%nat 3%nat ].

(** Weights [[1, 1]]. *)
Definition jobs_1_1 : list _Job :=
  [ _Job__init__ 0 1 (Report 1 (propagate Done)) 0%nat 1%nat;
    _Job__init__ 1 1 (Report 1 (propagate Done)) 2%nat 3%nat ].

(** The job list after [_progress_reporter p id] has stored the progress
    of the job at position [i], of weight [w]. *)
Definition after_report (p : Q) (i : nat) (w : Z) (s : state) : list _Job :=
  update i (set_progress (inject_Z w / inject_Z (_total_weight (self s)) * p)%Q)
         (_jobs (self s)).

(** What the bounds on [job.progress] rest on in parallel mode. *)
Definition par_inv (s : state) : Prop :=
  positive_weights s /\ weights_consistent s /\ progress_bounded s.

(** ** Observations of the wait loop *)

(** A poll that finds nothing, or the end of the file. *)
Definition quiet (o : observation) : bool :=
  match o with
  | NoData => true
  | EndOfFile _ => true
  | _ => false
  end.


(** The endpoint that the wait loop polls when its iterator is at
    position [i] of the active set [rs]. *)
Definition polled (rs : list conn) (i : nat) : conn :=
  nth (if (i <? length rs)%nat then i else O) rs O.

(** Number of end-of-file observations. *)
Fixpoint closures (obs : list observation) : nat :=
  match obs with
  | [] => O
  | EndOfFile _ :: obs' => S (closures obs')
  | _ :: obs' => closures obs'
  end.



(** Nothing but the set of active readers has changed. *)
Definition same_but_readers (s s' : state) : Prop :=
  _jobs (self s') = _jobs (self s) /\
  _total_weight (self s') = _total_weight (self s) /\
  _lock (self s') = _lock (self s) /\
  logging s' = logging s /\
  invoked s' = invoked s /\
  callbacks s' = callbacks s.

(** A manager with one registered job, on which a [_readers] attribute
    holding the read end of that job's pipe has been set from outside. *)
Definition polling : state :=
  set_readers [0%nat]
    (registered [ _Job__init__ 0 1 (Report 1 (propagate Done)) 0%nat 1%nat ]
                default_logging).



(** Whether [join()] has returned for the job. *)
Definition joined (j : _Job) : bool :=
  match proc j with
  | Joined => true
  | _ => false
  end.

From Stdlib Require DecimalString.

(** ** Further notions used by the properties of the second part *)

(** Nothing but the job list has changed. *)
Definition same_but_jobs (s s' : state) : Prop :=
  _total_weight (self s') = _total_weight (self s) /\
  _lock (self s') = _lock (self s) /\
  _job_weights (self s') = _job_weights (self s) /\
  _readers (self s') = _readers (self s) /\
  logging s' = logging s /\
  pipes s' = pipes s /\
  closed s' = closed s /\
  invoked s' = invoked s /\
  callbacks s' = callbacks s.

(** A poll that finds nothing, the end of a file, the exit of a worker. *)
Definition calm (o : observation) : bool :=
  match o with
  | NoData => true
  | EndOfFile _ => true
  | Exited _ => true
  | _ => false
  end.

(** The job list after the exits among the observations. *)
Fixpoint exit_all (obs : list observation) (js : list _Job) : list _Job :=
  match obs with
  | [] => js
  | Exited k :: obs' => exit_all obs' (update k exited js)
  | _ :: obs' => exit_all obs' js
  end.

(** What a work function reports, and how it ends, when every call of the
    callback returns normally. *)
Fixpoint reports_of (f : work) : list Q :=
  match f with
  | Done => []
  | Fail _ => []
  | Report p k => p :: reports_of (k None)
  end.

Fixpoint result_of (f : work) : option exn :=
  match f with
  | Done => None
  | Fail e => Some e
  | Report _ k => result_of (k None)
  end.

(** ** ozflux_logging: the log functions

    The module globals of [ozflux_logging.py] and the two output streams.
    What [print] writes is appended to the text of the stream.  The rank
    of the process in [mpi4py.MPI.COMM_WORLD] is a field of the state. *)

Module ozflux_logging.

Inductive LogLevel : Type :=
| NONE
| ERROR
| WARNING
| INFORMATION
| DIAGNOSTIC
| DEBUG.

(** The integer value of a member of the [IntEnum]. *)
Definition value (l : LogLevel) : Z :=
  match l with
  | NONE => 0
  | ERROR => 1
  | WARNING => 2
  | INFORMATION => 3
  | DIAGNOSTIC => 4
  | DEBUG => 5
  end.

Definition MAX_PROGRESS_MSG_LEN : nat := 17.

Record globals : Type := mkGlobals {
  _log_level : LogLevel;
  _show_progress : bool;
  _warnings_as_errors : bool;
  _progress_end : string;
  _mpi_pfx : bool;
  rank : nat;
  stdout : string;
  stderr : string
}.

Inductive stream : Type := Stdout | Stderr.

Inductive result : Type :=
| Ok (g : globals)
| Err (e : exn) (g : globals).

Definition newline : string := String (Ascii.ascii_of_nat 10) EmptyString.
Definition carriage_return : string := String (Ascii.ascii_of_nat 13) EmptyString.

(** [" " * n] *)
Fixpoint spaces (n : nat) : string :=
  match n with
  | O => EmptyString
  | S n' => String (Ascii.ascii_of_nat 32) (spaces n')
  end.

(** [str(n)] for a natural number. *)
Definition decimal (n : nat) : string :=
  DecimalString.NilEmpty.string_of_uint (Nat.to_uint n).

(** [print(text, file = f, end = e)] *)
Definition print (text : string) (f : stream) (e : string) (g : globals) : globals :=
  match f with
  | Stdout =>
      mkGlobals (_log_level g) (_show_progress g) (_warnings_as_errors g)
                (_progress_end g) (_mpi_pfx g) (rank g)
                (stdout g ++ text ++ e) (stderr g)
  | Stderr =>
      mkGlobals (_log_level g) (_show_progress g) (_warnings_as_errors g)
                (_progress_end g) (_mpi_pfx g) (rank g)
                (stdout g) (stderr g ++ text ++ e)
  end.

Definition set_use_mpi_pfx (mpi_pfx : bool) (g : globals) : globals :=
  mkGlobals (_log_level g) (_show_progress g) (_warnings_as_errors g)
            (_progress_end g) mpi_pfx (rank g) (stdout g) (stderr g).

Definition set_warnings_as_errors (warnings_as_errors : bool) (g : globals) : globals :=
  mkGlobals (_log_level g) (_show_progress g) warnings_as_errors
            (_progress_end g) (_mpi_pfx g) (rank g) (stdout g) (stderr g).

Definition set_log_level (log_level : LogLevel) (g : globals) : globals :=
  mkGlobals log_level (_show_progress g) (_warnings_as_errors g)
            (_progress_end g) (_mpi_pfx g) (rank g) (stdout g) (stderr g).

Definition set_show_progress (show_progress : bool) (g : globals) : globals :=
  mkGlobals (_log_level g) show_progress (_warnings_as_errors g)
            (_progress_end g) (_mpi_pfx g) (rank g) (stdout g) (stderr g).

Definition _clear_line (file : stream) (g : globals) : globals :=
  print (spaces MAX_PROGRESS_MSG_LEN) file carriage_return g.

Definition is_warning (l : LogLevel) : bool :=
  match l with WARNING => true | _ => false end.

Definition is_error (l : LogLevel) : bool :=
  match l with ERROR => true | _ => false end.

(** The message after the two decorations of [log]. *)
Definition decorate (msg : string) (log_level : LogLevel) (g : globals) : string :=
  let msg1 := if is_warning log_level then ("WARNING: " ++ msg)%string else msg in
  if _mpi_pfx g then ("[node " ++ decimal (rank g) ++ "] " ++ msg1)%string else msg1.

(** [log(msg, log_level)] *)
Definition log (msg : string) (log_level : LogLevel) (g : globals) : result :=
  if is_warning log_level && _warnings_as_errors g then Err ValueError g
  else
    let msg' := decorate msg log_level g in
    if value log_level <=? value (_log_level g) then
      let file := if is_error log_level then Stderr else Stdout in
      Ok (print msg' file newline (_clear_line file g))
    else Ok g.

Definition log_error (msg : string) : globals -> result := log msg ERROR.
Definition log_warning (msg : string) : globals -> result := log msg WARNING.
Definition log_information (msg : string) : globals -> result := log msg INFORMATION.
Definition log_diagnostic (msg : string) : globals -> result := log msg DIAGNOSTIC.
Definition log_debug (msg : string) : globals -> result := log msg DEBUG.

(** The text of a progress report: the literal parts of the format
    ["Working: %.2f%%; elapsed: %s; remaining: %s               "] around
    the three formatted fields, which depend on the formatting of floats
    and of times and are given. *)
Definition progress_line (percent elapsed remaining : string) : string :=
  ("Working: " ++ percent ++ "%; elapsed: " ++ elapsed ++ "; remaining: "
   ++ remaining ++ "               ")%string.

(** [log_progress(progress)], with the reading [now] of the clock
    ([datetime.now() - _progress_reporting_start], in microseconds) and
    the formatted fields of its report. *)
Definition log_progress (progress : Q) (now : Z) (percent elapsed remaining : string)
           (g : globals) : result :=
  match (if negb (Qle_bool progress 1)
         then log_warning "Attempted to display progress > 1" g
         else Ok g) with
  | Err e g' => Err e g'
  | Ok g1 =>
      match remaining_time now progress with
      | inl e => Err e g1
      | inr _ =>
          if _show_progress g1
          then Ok (print (progress_line percent elapsed remaining) Stdout
                         (_progress_end g1) g1)
          else Ok g1
      end
  end.

End ozflux_logging.

(** The exception a call of the logging module ended with, if any. *)
Definition raised (r : ozflux_logging.result) : option exn :=
  match r with
  | ozflux_logging.Ok _ => None
  | ozflux_logging.Err e _ => Some e
  end.

(** The state of the logging module a call ended in. *)
Definition globals_of (r : ozflux_logging.result) : ozflux_logging.globals :=
  match r with
  | ozflux_logging.Ok g => g
  | ozflux_logging.Err _ g => g
  end.

(** A state of the logging module as it is at import, on the only
    process, with nothing written yet. *)
Definition logging_at_import : ozflux_logging.globals :=
  ozflux_logging.mkGlobals ozflux_logging.WARNING false false
                           ozflux_logging.newline false 0 EmptyString EmptyString.

(** ** csv2netcdf: the chunked writes

    The index arithmetic of the loops of [create_coordinate] and
    [copy_data].  The chunk size of a dimension comes from
    [try_get_chunk_size] (module [ozflux_netcdf]) and is a parameter. *)

(** [range(start, stop, step)] *)
Definition range3 (start stop step : Z) : exn + list Z :=
  if step =? 0 then inl ValueError
  else if 0 <? step
  then inr (map (fun k => start + Z.of_nat k * step)
                (seq 0 (Z.to_nat ((stop - start + step - 1) / step))))
  else inr (map (fun k => start + Z.of_nat k * step)
                (seq 0 (Z.to_nat ((start - stop - step - 1) / (- step))))).

(** [range(n)] *)
Definition range1 (n : Z) : list Z :=
  map Z.of_nat (seq 0 (Z.to_nat n)).

(** The slices [lower:upper] written by the loop of [create_coordinate],
    in order. *)
Definition create_coordinate_slices (size chunk_size : Z) : exn + list (Z * Z) :=
  match range3 0 size chunk_size with
  | inl e => inl e
  | inr lowers => inr (map (fun i => (i, Z.min size (i + chunk_size))) lowers)
  end.

(** [size // chunk_size] *)
Definition floordiv (a b : Z) : exn + Z :=
  if b =? 0 then inl ZeroDivisionError else inr (a / b).

(** The index ranges [range(low, high)] that [copy_data] goes through
    along one dimension, in order. *)
Definition copy_data_ranges (size chunk_size : Z) : exn + list (Z * Z) :=
  match floordiv size chunk_size with
  | inl e => inl e
  | inr niter =>
      inr (map (fun i => (i * chunk_size, Z.min size (i * chunk_size + chunk_size)))
               (range1 niter))
  end.

(** The blocks [var[ir, jr, kr]] written by [copy_data] for one variable,
    in order, given the ranges along the three dimensions. *)
Definition copy_data_blocks (ri rj rk : list (Z * Z)) : list ((Z * Z) * (Z * Z) * (Z * Z)) :=
  flat_map (fun ir => flat_map (fun jr => map (fun kr => (ir, jr, kr)) rk) rj) ri.

(** The ranges [l] follow one another from [lo] to [hi], none empty. *)
Fixpoint tiles (lo hi : Z) (l : list (Z * Z)) : Prop :=
  match l with
  | [] => lo = hi
  | r :: l' => fst r = lo /\ fst r < snd r /\ tiles (snd r) hi l'
  end.

(** The index [x] lies in one of the ranges. *)
Definition covered (l : list (Z * Z)) (x : Z) : Prop :=
  exists r, In r l /\ fst r <= x < snd r.

(** The cell [(x, y, z)] lies in one of the blocks. *)
Definition written (blocks : list ((Z * Z) * (Z * Z) * (Z * Z))) (x y z : Z) : Prop :=
  exists ir jr kr,
    In (ir, jr, kr) blocks /\
    fst ir <= x < snd ir /\ fst jr <= y < snd jr /\ fst kr <= z < snd kr.

(** * Properties *)

(** ** The lock and the [with] statement *)

Lemma with_bool_skips_suite (b : bool) (suite : M unit) (s : state) :
  with_ (PyBool b) suite s = Raised not_a_context_manager s.
Proof. reflexivity. Qed.

Lemma acquire_with_bool (suite : M unit) (s : state) :
  (b <- acquire ;; with_ (PyBool b) suite) s =
  match _lock (self s) with
  | O => Blocked OnSemaphore s
  | S n => Raised not_a_context_manager (set_lock n s)
  end.
Proof.
  unfold bind, acquire. destruct (_lock (self s)); reflexivity.
Qed.

Lemma perform_unfold (op : operation) (s : state) :
  perform op s =
  match _lock (self s) with
  | O => Blocked OnSemaphore s
  | S n => Raised not_a_context_manager (set_lock n s)
  end.
Proof.
  destruct op; apply acquire_with_bool.
Qed.

Lemma same_but_lock_refl (s : state) : same_but_lock s s.
Proof. unfold same_but_lock; repeat split; auto. Qed.

Lemma same_but_lock_trans (s1 s2 s3 : state) :
  same_but_lock s1 s2 -> same_but_lock s2 s3 -> same_but_lock s1 s3.
Proof.
  unfold same_but_lock; intros (A1 & A2 & A3 & A4 & A5 & A6 & A7)
                               (B1 & B2 & B3 & B4 & B5 & B6 & B7).
  repeat split; try congruence. lia.
Qed.

Lemma perform_same_but_lock (op : operation) (s : state) :
  same_but_lock s (final (perform op s)).
Proof.
  rewrite perform_unfold. destruct (_lock (self s)) as [|n] eqn:L; simpl.
  - apply same_but_lock_refl.
  - unfold same_but_lock; simpl. repeat split; auto. lia.
Qed.


Lemma session_same_but_lock (ops : list operation) :
  forall s, same_but_lock s (session ops s).
Proof.
  induction ops as [|op ops IH]; intro s; simpl.
  - apply same_but_lock_refl.
  - pose proof (perform_same_but_lock op s) as H.
    destruct (perform op s) as [a s'|e s'|b s']; simpl in H; auto;
      eapply same_but_lock_trans; eauto.
Qed.

(** C1.  On a freshly constructed manager each of [add_job],
    [run_parallel] and [run_single_threaded] raises the [TypeError] of the
    [with] statement applied to the [bool] returned by [acquire], whatever
    the suite of that statement is; and whatever sequence of public
    operations a caller then performs, the job list stays empty,
    [_total_weight] stays 0 and no work function is invoked (nothing is
    reported to the progress sink either). *)
Theorem C1_public_operations_raise_before_their_body :
  forall (allow_parallel : bool) (g : Logging),
    (forall op : operation,
        perform op (fresh allow_parallel g) =
        Raised not_a_context_manager (set_lock 0 (fresh allow_parallel g))) /\
    (forall suite : M unit,
        (b <- acquire ;; with_ (PyBool b) suite) (fresh allow_parallel g) =
        Raised not_a_context_manager (set_lock 0 (fresh allow_parallel g))) /\
    (forall ops : list operation,
        let s := session ops (fresh allow_parallel g) in
        _jobs (self s) = [] /\
        _total_weight (self s) = 0 /\
        invoked s = [] /\
        reported (logging s) = reported g).
Proof.
  intros ap g. split; [|split].
  - intro op. rewrite perform_unfold. reflexivity.
  - intro suite. rewrite acquire_with_bool. reflexivity.
  - intros ops s.
    destruct (session_same_but_lock ops (fresh ap g)) as (J & T & _ & _ & L & I & _).
    subst s. rewrite J, T, L, I. repeat split; reflexivity.
Qed.

(** C8.  The semaphore is acquired by the expression of the [with]
    statement and the statement then raises without ever releasing it:
    after the first public operation on a fresh manager the value of the
    semaphore is 0, and every later public operation waits on it for
    ever. *)
Theorem C8_lock_is_left_held :
  forall (allow_parallel : bool) (g : Logging) (op op' : operation),
    let s1 := final (perform op (fresh allow_parallel g)) in
    kind_of (perform op (fresh allow_parallel g)) = KRaised not_a_context_manager /\
    _lock (self s1) = 0%nat /\
    perform op' s1 = Blocked OnSemaphore s1.
Proof.
  intros ap g op op' s1. subst s1.
  rewrite !perform_unfold. simpl. repeat split; reflexivity.
Qed.

(** For comparison: had the statement been handed the semaphore itself,
    the lock would have been released on the exceptional path as well. *)
Remark with_semaphore_releases (e : exn) (allow_parallel : bool) (g : Logging) :
  with_ PySemaphore (raise e) (fresh allow_parallel g) =
  Raised e (fresh allow_parallel g).
Proof. reflexivity. Qed.

(** ** Registration *)

(** The suite of [add_job], were it entered: it stops at
    [self._job_weights] when the object has no such attribute, and
    otherwise at the construction of the [_Job], which is not handed the
    weight. *)
Remark add_job_suite_unfold (f : work) (w : Z) (s : state) :
  add_job_suite f w s =
  match _job_weights (self s) with
  | None => Raised no_job_weights s
  | Some ws =>
      Raised missing_argument
             (mkState (mkJobManager (allow_parallel (self s))
                                    (_total_weight (self s) + w)
                                    (_jobs (self s)) (_lock (self s))
                                    (Some (ws ++ [w])) (_readers (self s)))
                      (logging s) (S (pipes s)) (closed s) (invoked s) (callbacks s))
  end.
Proof.
  unfold add_job_suite. destruct (_job_weights (self s)); reflexivity.
Qed.

(** C2 (as stated, refuted).  [add_job] with weight 0 on a fresh manager
    does not fail with [InvalidArgument]. *)
Lemma C2_counterexample :
  0 <= 0 /\
  ~ exists s', add_job Done 0 (fresh false default_logging) = Raised InvalidArgument s'.
Proof.
  split; [lia|]. intros [s' H]. vm_compute in H. discriminate H.
Qed.

(** C2 (amended).  The weight is not validated: for a weight [<= 0],
    [add_job] never fails with [InvalidArgument], it does what it does for
    any positive weight, and whenever it fails [_total_weight] and the job
    list are what they were before the call. *)
Theorem C2_weight_is_not_validated :
  forall (f : work) (w : Z) (s : state),
    w <= 0 ->
    (forall s', add_job f w s <> Raised InvalidArgument s') /\
    (forall w', 0 < w' -> kind_of (add_job f w s) = kind_of (add_job f w' s)) /\
    (forall e s', add_job f w s = Raised e s' ->
                  _total_weight (self s') = _total_weight (self s) /\
                  _jobs (self s') = _jobs (self s)).
Proof.
  intros f w s _. unfold add_job. split; [|split].
  - intros s'. rewrite acquire_with_bool.
    destruct (_lock (self s)); discriminate.
  - intros w' _. rewrite !acquire_with_bool. reflexivity.
  - intros e s'. rewrite acquire_with_bool.
    destruct (_lock (self s)); intro H; inversion H; subst; auto.
Qed.

Lemma C2_weight_is_not_validated_witness :
  -1 <= 0 /\
  forall s', add_job Done (-1) (fresh true default_logging) <> Raised InvalidArgument s'.
Proof.
  split; [lia|].
  apply (C2_weight_is_not_validated Done (-1) (fresh true default_logging)). lia.
Defined.




(** ** Sequential execution *)

Lemma nth_error_update {A : Type} (f : A -> A) (l : list A) :
  forall i, nth_error (update i f l) i = option_map f (nth_error l i).
Proof.
  induction l as [|x l IH]; intros [|i]; simpl; auto.
Qed.

Lemma map_update {A B : Type} (g : A -> B) (f : A -> A) (l : list A) :
  (forall x, g (f x) = g x) ->
  forall i, map g (update i f l) = map g l.
Proof.
  intros H. induction l as [|x l IH]; intros [|i]; simpl; auto; congruence.
Qed.

Lemma map_shape_update_progress (p : Q) (l : list _Job) (i : nat) :
  map shape (update i (set_progress p) l) = map shape l.
Proof. apply map_update. reflexivity. Qed.

Lemma shape_weight (j j' : _Job) : shape j = shape j' -> weight j = weight j'.
Proof. unfold shape. congruence. Qed.

Lemma shape_func (j j' : _Job) : shape j = shape j' -> func j = func j'.
Proof. unfold shape. congruence. Qed.

Lemma map_shape_nth (l l' : list _Job) :
  map shape l = map shape l' ->
  forall i j, nth_error l i = Some j ->
              exists j', nth_error l' i = Some j' /\ shape j' = shape j.
Proof.
  intros H i j Hn.
  assert (E : nth_error (map shape l') i = Some (shape j))
    by (rewrite <- H, nth_error_map, Hn; reflexivity).
  rewrite nth_error_map in E.
  destruct (nth_error l' i) as [j'|]; simpl in E; [|discriminate].
  exists j'. split; congruence.
Qed.

Lemma map_shape_weights (l l' : list _Job) :
  map shape l = map shape l' -> map weight l = map weight l'.
Proof.
  intro H.
  assert (E : forall k, map weight k = map (fun t => snd (fst (fst (fst t)))) (map shape k))
    by (intro k; rewrite map_map; reflexivity).
  now rewrite (E l), (E l'), H.
Qed.

Lemma start_of_weights (l l' : list _Job) (i : nat) :
  map weight l = map weight l' -> start_of l i = start_of l' i.
Proof.
  intro H. unfold start_of, sum_weights. rewrite <- !firstn_map. now rewrite H.
Qed.

Lemma weight_at_weights (l l' : list _Job) (i : nat) :
  map weight l = map weight l' -> weight_at l i = weight_at l' i.
Proof.
  intro H. unfold weight_at.
  assert (E : nth_error (map weight l) i = nth_error (map weight l') i) by now rewrite H.
  rewrite !nth_error_map in E.
  destruct (nth_error l i), (nth_error l' i); simpl in E; congruence.
Qed.

Lemma overall_shape (l l' : list _Job) (T : Z) (c : nat * Q) :
  map shape l = map shape l' -> overall l T c = overall l' T c.
Proof.
  intro H. apply map_shape_weights in H. unfold overall.
  now rewrite (start_of_weights l l' _ H), (weight_at_weights l l' _ H).
Qed.

Lemma start_of_S (l : list _Job) :
  forall i j, nth_error l i = Some j -> start_of l (S i) = start_of l i + weight j.
Proof.
  unfold start_of, sum_weights.
  induction l as [|x l IH]; intros [|i] j H; simpl in *; try discriminate.
  - inversion H; subst. lia.
  - rewrite (IH i j H). lia.
Qed.

Lemma sum_weights_pos (l : list _Job) :
  Forall (fun j => 0 < weight j) l -> l <> [] -> 0 < sum_weights l.
Proof.
  unfold sum_weights. induction 1 as [|x l Hx Hl IH]; intro Hne; [congruence|].
  simpl. destruct l as [|y l]; simpl in *; [lia|].
  assert (0 < weight y + fold_right Z.add 0 (map weight l)) by (apply IH; discriminate).
  lia.
Qed.

Lemma Qeq_bool_inject_Z_0 (z : Z) : z <> 0 -> Qeq_bool (inject_Z z) 0 = false.
Proof.
  intro H. unfold Qeq_bool, inject_Z. simpl.
  apply Z.eqb_neq. lia.
Qed.

Lemma Qeq_bool_inject_Z (z : Z) : Qeq_bool (inject_Z z) 0 = (z =? 0).
Proof.
  unfold Qeq_bool, inject_Z. simpl. now rewrite Z.mul_1_r.
Qed.

Lemma nth_error_update_other {A : Type} (f : A -> A) (l : list A) :
  forall i k, i <> k -> nth_error (update i f l) k = nth_error l k.
Proof.
  induction l as [|x l IH]; intros [|i] [|k] H; simpl; auto; congruence.
Qed.

Lemma length_update {A : Type} (f : A -> A) (l : list A) :
  forall i, length (update i f l) = length l.
Proof.
  induction l as [|x l IH]; intros [|i]; simpl; auto.
Qed.

Lemma update_out_of_range {A : Type} (f : A -> A) (l : list A) :
  forall i, nth_error l i = None -> update i f l = l.
Proof.
  induction l as [|x l IH]; intros [|i] H; simpl in *; try discriminate; auto.
  f_equal. auto.
Qed.

Lemma seq_frame_refl (s : state) : seq_frame s s.
Proof. unfold seq_frame; auto. Qed.

Lemma seq_frame_trans (s1 s2 s3 : state) :
  seq_frame s1 s2 -> seq_frame s2 s3 -> seq_frame s1 s3.
Proof.
  unfold seq_frame. intros (A & B & C) (A' & B' & C'). repeat split; congruence.
Qed.


Lemma seq_frame_nth (s s' : state) (i : nat) (j : _Job) :
  seq_frame s s' ->
  nth_error (_jobs (self s)) i = Some j ->
  exists j', nth_error (_jobs (self s')) i = Some j' /\ shape j' = shape j.
Proof.
  intros (A & _) Hn. eapply map_shape_nth; [symmetry; exact A | exact Hn].
Qed.

Lemma seq_frame_length (s s' : state) :
  seq_frame s s' -> length (_jobs (self s')) = length (_jobs (self s)).
Proof.
  intros (A & _). rewrite <- (length_map shape), A. apply length_map.
Qed.


(** *** One call of [log_progress] *)

Lemma log_progress_ended (q : Q) (s : state) :
  exists o n, log_progress q s = ended o (logged q o n s).
Proof.
  unfold log_progress.
  destruct (negb (Qle_bool q 1) && _warnings_as_errors (logging s)).
  - exists (Some ValueError), (ticks (logging s)). reflexivity.
  - destruct (remaining_time (clock (logging s) (ticks (logging s))) q) as [e|r].
    + exists (Some e), (S (ticks (logging s))). reflexivity.
    + exists None, (S (ticks (logging s))). reflexivity.
Qed.

Lemma final_ended (o : option exn) (s : state) : final (ended o s) = s.
Proof. destruct o; reflexivity. Qed.


Lemma seq_frame_logged (q : Q) (o : option exn) (n : nat) (s : state) :
  seq_frame s (logged q o n s).
Proof. unfold seq_frame; simpl; auto. Qed.

Lemma seq_frame_stored (i : nat) (p : Q) (s : state) :
  seq_frame s (stored i p s).
Proof.
  unfold seq_frame; simpl. rewrite map_shape_update_progress. auto.
Qed.


(** *** One invocation of the callback that [run_local] hands to job [i] *)

(** The three ways the invocation can go: there is no such job; the
    total weight is zero; [log_progress] is called with the value of the
    formula, the progress being stored in the job. *)
Lemma local_callback_unfold (i : nat) (p : Q) (start T : Z) (s : state) :
  (note_callback i p ;; _progress_local i p start T) s =
  match nth_error (_jobs (self s)) i with
  | None => Raised IndexError
                   (mkState (self s) (logging s) (pipes s) (closed s) (invoked s)
                            (callbacks s ++ [(i, p)]))
  | Some j =>
      if T =? 0 then Raised ZeroDivisionError (stored i p s)
      else log_progress ((inject_Z start + inject_Z (weight j) * p) / inject_Z T)%Q
                        (stored i p s)
  end.
Proof.
  unfold bind, note_callback, _progress_local. simpl.
  rewrite nth_error_update.
  destruct (nth_error (_jobs (self s)) i) as [j|]; simpl; [|reflexivity].
  unfold bind, truediv. rewrite Qeq_bool_inject_Z.
  destruct (T =? 0); reflexivity.
Qed.

Lemma local_callback_ended (i : nat) (p : Q) (start T : Z) (s : state) (j : _Job) :
  nth_error (_jobs (self s)) i = Some j ->
  T <> 0 ->
  exists o n,
    (note_callback i p ;; _progress_local i p start T) s =
    ended o (logged ((inject_Z start + inject_Z (weight j) * p) / inject_Z T)%Q o n
                    (stored i p s)).
Proof.
  intros Hn HT. rewrite local_callback_unfold, Hn.
  apply Z.eqb_neq in HT. rewrite HT. apply log_progress_ended.
Qed.

(** What an invocation leaves behind, however it ends. *)
Lemma local_callback_final (i : nat) (p : Q) (start T : Z) (s : state) :
  let s' := final ((note_callback i p ;; _progress_local i p start T) s) in
  _jobs (self s') = update i (set_progress p) (_jobs (self s)) /\
  invoked s' = invoked s /\
  callbacks s' = callbacks s ++ [(i, p)] /\
  seq_frame s s'.
Proof.
  rewrite local_callback_unfold.
  destruct (nth_error (_jobs (self s)) i) as [j|] eqn:Hn.
  - destruct (T =? 0).
    + simpl. repeat split; auto. apply seq_frame_stored.
    + destruct (log_progress_ended
                  ((inject_Z start + inject_Z (weight j) * p) / inject_Z T)%Q
                  (stored i p s)) as (o & n & E).
      rewrite E, final_ended. simpl. repeat split; auto.
      eapply seq_frame_trans; [apply seq_frame_stored|apply seq_frame_logged].
  - simpl. rewrite (update_out_of_range _ _ _ Hn). repeat split; auto.
Qed.

(** *** A call of a work function, the loop over the jobs *)

Lemma store_all_app (a b : list (nat * Q)) (js : list _Job) :
  store_all (a ++ b) js = store_all b (store_all a js).
Proof. apply fold_left_app. Qed.

Lemma map_shape_store_all (cbs : list (nat * Q)) :
  forall js, map shape (store_all cbs js) = map shape js.
Proof.
  induction cbs as [|c cbs IH]; intro js; simpl; auto.
  unfold store_all in IH. rewrite IH. apply map_shape_update_progress.
Qed.

(** The job that reported last holds the local progress it reported. *)
Lemma store_all_last (before : list (nat * Q)) (i : nat) (p : Q) (js : list _Job) (j : _Job) :
  nth_error js i = Some j ->
  exists j',
    nth_error (store_all (before ++ [(i, p)]) js) i = Some j' /\
    progress j' = p /\
    shape j' = shape j.
Proof.
  intro Hn. rewrite store_all_app. simpl.
  destruct (map_shape_nth js (store_all before js) (eq_sym (map_shape_store_all before js))
                          i j Hn) as (j1 & Hn1 & Hsh).
  exists (set_progress p j1). rewrite nth_error_update, Hn1. simpl.
  repeat split. rewrite <- Hsh. reflexivity.
Qed.

(** A whole call of the work function of job [i] with the callback of
    [run_local]: one report per invocation, computed from [start], the
    weight of the job and [T]. *)
Lemma call_local (i : nat) (start T w : Z) (HT : T <> 0) (f : work) :
  forall s,
    (exists j, nth_error (_jobs (self s)) i = Some j /\ weight j = w) ->
    let s' := final (call f (fun p => note_callback i p ;;
                                      _progress_local i p start T) s) in
    seq_frame s s' /\
    exists ps,
      callbacks s' = callbacks s ++ map (pair i) ps /\
      reported (logging s') =
      reported (logging s) ++
      map (fun p => ((inject_Z start + inject_Z w * p) / inject_Z T)%Q) ps /\
      _jobs (self s') = store_all (map (pair i) ps) (_jobs (self s)).
Proof.
  induction f as [|e|p k IH]; intros s (j & Hn & Hw); simpl.
  - split; [apply seq_frame_refl|]. exists []. simpl. now rewrite !app_nil_r.
  - split; [apply seq_frame_refl|]. exists []. simpl. now rewrite !app_nil_r.
  - destruct (local_callback_ended i p start T s j Hn HT) as (o & n & E).
    rewrite E.
    set (v := ((inject_Z start + inject_Z (weight j) * p) / inject_Z T)%Q) in *.
    set (s1 := logged v o n (stored i p s)) in *.
    assert (Hs1 : exists j1, nth_error (_jobs (self s1)) i = Some j1 /\ weight j1 = w)
      by (exists (set_progress p j); simpl; rewrite nth_error_update, Hn; auto).
    assert (Hf1 : seq_frame s s1)
      by (eapply seq_frame_trans; [apply seq_frame_stored|apply seq_frame_logged]).
    assert (Hk : forall r,
               let s' := final (call (k r) (fun p0 => note_callback i p0 ;;
                                               _progress_local i p0 start T) s1) in
               seq_frame s s' /\
               exists ps,
                 callbacks s' = callbacks s ++ map (pair i) ps /\
                 reported (logging s') =
                 reported (logging s) ++
                 map (fun p0 => ((inject_Z start + inject_Z w * p0) / inject_Z T)%Q) ps /\
                 _jobs (self s') = store_all (map (pair i) ps) (_jobs (self s))).
    { intro r. destruct (IH r _ Hs1) as (F & ps & Hcb & Hrep & Hjobs). cbv zeta.
      split; [eapply seq_frame_trans; eauto|].
      exists (p :: ps). rewrite Hcb, Hrep, Hjobs. subst s1 v. simpl.
      rewrite <- !app_assoc, Hw. repeat split; reflexivity. }
    destruct o as [e|]; simpl; apply Hk.
Qed.

Lemma run_local_unfold (i : nat) (start T : Z) (s : state) :
  run_local i start T s =
  match nth_error (_jobs (self s)) i with
  | None => Raised IndexError s
  | Some j =>
      call (func j) (fun p => note_callback i p ;; _progress_local i p start T)
           (mkState (self s) (logging s) (pipes s) (closed s)
                    (invoked s ++ [id j]) (callbacks s))
  end.
Proof.
  unfold run_local. destruct (nth_error (_jobs (self s)) i); reflexivity.
Qed.

(** The loop of [run_single_threaded]: the accumulated [cum_weight] is
    the sum of the weights before the current position, and every
    invocation of a callback reports [overall]. *)
Lemma for_jobs_spec (js : list _Job) :
  forall (i : nat) (cum : Z) (s : state),
    (i + length js = length (_jobs (self s)))%nat ->
    cum = start_of (_jobs (self s)) i ->
    (js <> [] -> _total_weight (self s) <> 0) ->
    let s' := final (for_jobs js i cum s) in
    seq_frame s s' /\
    exists cbs,
      callbacks s' = callbacks s ++ cbs /\
      reported (logging s') =
      reported (logging s) ++
      map (overall (_jobs (self s)) (_total_weight (self s))) cbs /\
      _jobs (self s') = store_all cbs (_jobs (self s)) /\
      Forall (fun c => (fst c < length (_jobs (self s)))%nat) cbs.
Proof.
  induction js as [|x js IH]; intros i cum s Hlen Hcum HT; simpl.
  - split; [apply seq_frame_refl|]. exists []. simpl. now rewrite !app_nil_r.
  - assert (HT' : _total_weight (self s) <> 0) by (apply HT; discriminate).
    destruct (nth_error (_jobs (self s)) i) as [j|] eqn:Hn.
    2:{ apply nth_error_None in Hn. simpl in Hlen. lia. }
    rewrite run_local_unfold, Hn.
    set (s0 := mkState (self s) (logging s) (pipes s) (closed s)
                       (invoked s ++ [id j]) (callbacks s)).
    destruct (call_local i cum (_total_weight (self s)) (weight j) HT' (func j) s0)
      as (F & ps & Hcb & Hrep & Hjobs).
    { exists j. split; auto. }
    assert (Hov : map (fun p => ((inject_Z cum + inject_Z (weight j) * p)
                                 / inject_Z (_total_weight (self s)))%Q) ps =
                  map (overall (_jobs (self s)) (_total_weight (self s)))
                      (map (pair i) ps)).
    { rewrite map_map. apply map_ext. intro p. unfold overall, weight_at. simpl.
      now rewrite Hn, Hcum. }
    rewrite Hov in Hrep. clear Hov.
    change (seq_frame s (final (call (func j)
              (fun p => note_callback i p ;;
                        _progress_local i p cum (_total_weight (self s))) s0))) in F.
    assert (Hin : Forall (fun c : nat * Q => (fst c < length (_jobs (self s)))%nat)
                         (map (pair i) ps)).
    { apply Forall_forall. intros c Hc. apply in_map_iff in Hc as (p & <- & _).
      simpl. apply nth_error_Some. congruence. }
    destruct (call (func j) _ s0) as [[] s1|e s1|b s1]; simpl in F, Hcb, Hrep, Hjobs.
    + destruct (seq_frame_nth s0 s1 i j F Hn) as (j' & Hn' & Hsh).
      rewrite Hn'.
      destruct (IH (S i) (cum + weight j') s1) as (F' & cbs & Hcb' & Hrep' & Hjobs' & Hin').
      * rewrite (seq_frame_length _ _ F). simpl in *. lia.
      * rewrite (start_of_weights _ (_jobs (self s))).
        -- rewrite (start_of_S _ _ _ Hn), (shape_weight _ _ Hsh). now subst cum.
        -- apply map_shape_weights, F.
      * intros _. destruct F as (_ & E & _). simpl in E. now rewrite E.
      * cbv zeta in F', Hcb', Hrep', Hjobs' |- *.
        pose proof (seq_frame_length _ _ F) as HL. simpl in HL.
        split; [eapply seq_frame_trans; eauto|].
        exists (map (pair i) ps ++ cbs). rewrite Hcb', Hrep', Hjobs', Hcb, Hrep, Hjobs.
        simpl. rewrite map_app, store_all_app, <- !app_assoc.
        destruct F as (A & B & _). simpl in A, B. rewrite B.
        split; [reflexivity|]. split; [|split; [reflexivity|]].
        -- do 2 f_equal.
           apply map_ext. intro c. apply overall_shape.
           rewrite <- Hjobs. exact A.
        -- apply Forall_app. split; [exact Hin|].
           rewrite HL in Hin'. exact Hin'.
    + simpl. split; [exact F|]. exists (map (pair i) ps). auto.
    + simpl. split; [exact F|]. exists (map (pair i) ps). auto.
Qed.

(** *** The loop and the description of the specification *)

Lemma local_callback_refines (js0 : list _Job) (i : nat) (p : Q) (s : state) :
  map shape (_jobs (self s)) = map shape js0 ->
  (i < length js0)%nat ->
  sum_weights js0 <> 0 ->
  (note_callback i p ;; _progress_local i p (start_of js0 i) (sum_weights js0)) s =
  spec_callback js0 i p s.
Proof.
  intros Hsh Hi HT.
  destruct (nth_error (_jobs (self s)) i) as [j|] eqn:Hn.
  2:{ apply nth_error_None in Hn.
      rewrite <- (length_map shape), Hsh, length_map in Hn. lia. }
  rewrite local_callback_unfold, Hn.
  apply Z.eqb_neq in HT. rewrite HT.
  unfold spec_callback, bind, note_callback, modify. cbv beta iota.
  unfold overall. cbn [fst snd].
  rewrite <- (weight_at_weights (_jobs (self s)) js0 i (map_shape_weights _ _ Hsh)).
  unfold weight_at. rewrite Hn. reflexivity.
Qed.

Lemma call_refines (js0 : list _Job) (i : nat) (f : work) :
  (i < length js0)%nat ->
  sum_weights js0 <> 0 ->
  forall s,
    map shape (_jobs (self s)) = map shape js0 ->
    call f (fun p => note_callback i p ;;
                     _progress_local i p (start_of js0 i) (sum_weights js0)) s =
    call f (spec_callback js0 i) s.
Proof.
  intros Hi HT. induction f as [|e|p k IH]; intros s Hsh; simpl; auto.
  rewrite <- (local_callback_refines js0 i p s Hsh Hi HT).
  pose proof (local_callback_final i p (start_of js0 i) (sum_weights js0) s)
    as (_ & _ & _ & (A & _)).
  destruct ((note_callback i p ;;
             _progress_local i p (start_of js0 i) (sum_weights js0)) s)
    as [[] s1|e1 s1|b1 s1]; simpl in A; auto; apply IH; congruence.
Qed.

Lemma skipn_cons_nth {A : Type} (l : list A) :
  forall i x rest,
    skipn i l = x :: rest -> nth_error l i = Some x /\ skipn (S i) l = rest.
Proof.
  induction l as [|y l IH]; intros [|i] x rest H; simpl in *; try discriminate.
  - injection H as -> ->. auto.
  - apply IH. exact H.
Qed.

Lemma spec_jobs_cons (js0 : list _Job) (x : _Job) (rest : list _Job) (i : nat) (s : state) :
  spec_jobs js0 (x :: rest) i s =
  match call (func x) (spec_callback js0 i)
             (mkState (self s) (logging s) (pipes s) (closed s)
                      (invoked s ++ [id x]) (callbacks s)) with
  | Returned _ s' => spec_jobs js0 rest (S i) s'
  | Raised e s' => Raised e s'
  | Blocked b s' => Blocked b s'
  end.
Proof. reflexivity. Qed.

Lemma for_jobs_refines (js0 : list _Job) :
  forall (rest : list _Job) (i : nat) (s : state),
    rest = skipn i js0 ->
    map shape (_jobs (self s)) = map shape js0 ->
    _total_weight (self s) = sum_weights js0 ->
    (rest <> [] -> sum_weights js0 <> 0) ->
    for_jobs rest i (start_of js0 i) s = spec_jobs js0 rest i s.
Proof.
  induction rest as [|x rest IH]; intros i s Hrest Hsh HT Hne; [reflexivity|].
  assert (HT' : sum_weights js0 <> 0) by (apply Hne; discriminate).
  destruct (skipn_cons_nth js0 i x rest (eq_sym Hrest)) as (Hx & Hrest').
  assert (Hi : (i < length js0)%nat) by (apply nth_error_Some; congruence).
  destruct (map_shape_nth js0 (_jobs (self s)) (eq_sym Hsh) i x Hx) as (j & Hn & Hj).
  rewrite spec_jobs_cons. cbn [for_jobs].
  rewrite run_local_unfold, Hn, HT.
  assert (Ei : id j = id x) by (unfold shape in Hj; congruence).
  rewrite Ei, (shape_func _ _ Hj).
  set (s0 := mkState (self s) (logging s) (pipes s) (closed s)
                     (invoked s ++ [id x]) (callbacks s)).
  rewrite <- (call_refines js0 i (func x) Hi HT' s0 Hsh).
  destruct (call_local i (start_of js0 i) (sum_weights js0) (weight j) HT' (func x) s0)
    as (F & _).
  { exists j. auto. }
  destruct (call (func x) _ s0) as [[] s1|e1 s1|b1 s1]; simpl in F; auto.
  destruct (seq_frame_nth s0 s1 i j F Hn) as (j1 & Hn1 & Hsh1).
  rewrite Hn1.
  assert (Hs1 : map shape (_jobs (self s1)) = map shape js0)
    by (destruct F as (A & _); simpl in A; congruence).
  rewrite <- (IH (S i) s1 (eq_sym Hrest') Hs1).
  - f_equal. rewrite (start_of_S js0 i x Hx).
    rewrite (shape_weight _ _ Hsh1), (shape_weight _ _ Hj). reflexivity.
  - destruct F as (_ & B & _). simpl in B. congruence.
  - intros _. exact HT'.
Qed.

(** The first invocation of a callback in the loop: the job at the
    current position starts by reporting [p]. *)
Lemma for_jobs_first_callback (x : _Job) (js : list _Job) (i : nat) (cum : Z)
      (s : state) (j : _Job) (p : Q) (k : option exn -> work) :
  (i + length (x :: js) = length (_jobs (self s)))%nat ->
  cum = start_of (_jobs (self s)) i ->
  _total_weight (self s) <> 0 ->
  nth_error (_jobs (self s)) i = Some j ->
  func j = Report p k ->
  exists rest,
    callbacks (final (for_jobs (x :: js) i cum s)) = callbacks s ++ (i, p) :: rest.
Proof.
  intros Hlen Hcum HT Hn Hf.
  cbn [for_jobs]. rewrite run_local_unfold, Hn, Hf. cbn [call].
  set (s0 := mkState (self s) (logging s) (pipes s) (closed s)
                     (invoked s ++ [id j]) (callbacks s)).
  destruct (local_callback_ended i p cum (_total_weight (self s)) s0 j Hn HT)
    as (o & n & E).
  rewrite E.
  set (v := ((inject_Z cum + inject_Z (weight j) * p)
             / inject_Z (_total_weight (self s)))%Q) in *.
  set (s1 := logged v o n (stored i p s0)).
  assert (Hs1 : exists j1, nth_error (_jobs (self s1)) i = Some j1 /\ weight j1 = weight j)
    by (exists (set_progress p j); simpl; rewrite nth_error_update, Hn; auto).
  assert (Fs1 : seq_frame s s1)
    by (eapply seq_frame_trans; [apply (seq_frame_stored i p s0)|apply seq_frame_logged]).
  assert (Hk : forall r,
             exists rest,
               callbacks (final
                 match call (k r) (fun p0 => note_callback i p0 ;;
                                             _progress_local i p0 cum (_total_weight (self s)))
                            s1 with
                 | Returned _ s' =>
                     match nth_error (_jobs (self s')) i with
                     | Some job => for_jobs js (S i) (cum + weight job) s'
                     | None => Raised IndexError s'
                     end
                 | Raised e s' => Raised e s'
                 | Blocked b s' => Blocked b s'
                 end) = callbacks s ++ (i, p) :: rest).
  { intro r.
    destruct (call_local i cum (_total_weight (self s)) (weight j) HT (k r) s1 Hs1)
      as (F & ps & Hcb & _).
    change (callbacks s1) with (callbacks s ++ [(i, p)]) in Hcb.
    rewrite <- app_assoc in Hcb. cbn [app] in Hcb.
    destruct (call (k r) _ s1) as [[] s2|e2 s2|b2 s2]; simpl in F, Hcb; simpl final;
      try (eexists; exact Hcb).
    assert (Fs2 : seq_frame s s2) by (eapply seq_frame_trans; eauto).
    destruct (seq_frame_nth s s2 i j Fs2 Hn) as (j2 & Hn2 & Hsh2).
    rewrite Hn2.
    destruct (for_jobs_spec js (S i) (cum + weight j2) s2) as (_ & cbs & Hcb2 & _).
    - rewrite (seq_frame_length _ _ Fs2). simpl in Hlen. lia.
    - rewrite (start_of_S _ _ _ Hn2).
      rewrite (start_of_weights _ (_jobs (self s))); [now subst cum|].
      apply map_shape_weights, Fs2.
    - intros _. destruct Fs2 as (_ & B & _). now rewrite B.
    - rewrite Hcb2, Hcb, <- app_assoc. cbn [app]. eauto. }
  destruct o as [e|]; apply Hk.
Qed.

(** With weights [[1; 3]], the job at position 0 reporting a local
    progress of 1.0 first: the first value that the loop hands to
    [log_progress] is 1/4. *)
Lemma first_report_1_3 (s : state) (j0 : _Job) (k : option exn -> work) :
  map weight (_jobs (self s)) = [1; 3] ->
  _total_weight (self s) = 4 ->
  nth_error (_jobs (self s)) 0 = Some j0 ->
  func j0 = Report 1 k ->
  exists rest,
    reported (logging (final (run_single_threaded_suite s))) =
    reported (logging s) ++ (1 # 4)%Q :: rest.
Proof.
  intros Hw HT Hn Hf. unfold run_single_threaded_suite.
  assert (HT0 : _total_weight (self s) <> 0) by lia.
  destruct (for_jobs_spec (_jobs (self s)) 0 0 s eq_refl eq_refl (fun _ => HT0))
    as (_ & cbs & Hcb & Hrep & _).
  destruct (_jobs (self s)) as [|a l] eqn:Hjobs; [discriminate|].
  destruct (for_jobs_first_callback a l 0 0 s j0 1 k) as (rest & Hfirst);
    try (rewrite Hjobs; reflexivity); auto; try (now rewrite Hjobs).
  rewrite Hcb in Hfirst. apply app_inv_head in Hfirst. subst cbs.
  rewrite Hrep. exists (map (overall (a :: l) (_total_weight (self s))) rest).
  f_equal. simpl map. f_equal.
  simpl in Hn. injection Hn as ->. simpl in Hw. injection Hw as Ha _.
  unfold overall, start_of, weight_at. simpl. rewrite Ha, HT. reflexivity.
Qed.

(** C3.  The loop of [run_single_threaded], over any registered job list
    with positive weights, is the sequential run that the specification
    describes: the work functions are called in registration order, each
    with a callback that stores the local progress and hands
    [(start_i + weight_i * local_progress) / total_weight] to the progress
    sink, [start_i] being the sum of the weights of the jobs before [i]
    (the code accumulates it in [cum_weight]).  Hence every invocation
    [(i, local_progress)] of a callback made during the run reports that
    value, in order; and with weights [[1, 3]], when job 0 starts by
    reporting a local progress of 1.0, the first value that the sink
    receives is 0.25.  The entry point [run_single_threaded] itself does
    not reach the loop: it invokes no callback and reports nothing. *)
Theorem C3_sequential_progress_formula :
  forall s : state,
    positive_weights s ->
    weights_consistent s ->
    let s' := final (run_single_threaded_suite s) in
    run_single_threaded_suite s = run_sequential s /\
    (exists cbs,
        callbacks s' = callbacks s ++ cbs /\
        reported (logging s') =
        reported (logging s) ++
        map (overall (_jobs (self s)) (_total_weight (self s))) cbs) /\
    (map weight (_jobs (self s)) = [1; 3] ->
     forall (j0 : _Job) (k : option exn -> work),
       nth_error (_jobs (self s)) 0 = Some j0 ->
       func j0 = Report 1 k ->
       exists rest,
         reported (logging s') = reported (logging s) ++ (1 # 4)%Q :: rest) /\
    (let e := final (run_single_threaded s) in
     callbacks e = callbacks s /\
     reported (logging e) = reported (logging s)).
Proof.
  intros s Hpos Hcons s'.
  assert (HT : _jobs (self s) <> [] -> _total_weight (self s) <> 0).
  { intro Hne. rewrite Hcons. pose proof (sum_weights_pos _ Hpos Hne). lia. }
  split; [|split; [|split]].
  - unfold run_single_threaded_suite, run_sequential.
    change 0 with (start_of (_jobs (self s)) 0) at 1.
    apply for_jobs_refines; auto.
    now rewrite <- Hcons.
  - subst s'. unfold run_single_threaded_suite.
    destruct (for_jobs_spec (_jobs (self s)) 0 0 s eq_refl eq_refl HT)
      as (_ & cbs & Hcb & Hrep & _).
    exists cbs. auto.
  - intros Hw j0 k Hn Hf. apply (first_report_1_3 s j0 k); auto.
    unfold weights_consistent, sum_weights in Hcons. rewrite Hcons, Hw. reflexivity.
  - cbv zeta.
    change (run_single_threaded s) with (perform RunSingleThreaded s).
    rewrite perform_unfold.
    destruct (_lock (self s)); simpl; auto.
Qed.

Lemma C3_sequential_progress_formula_witness :
  let s := registered jobs_1_3 default_logging in
  positive_weights s /\
  weights_consistent s /\
  run_single_threaded_suite s = run_sequential s /\
  exists rest,
    reported (logging (final (run_single_threaded_suite s))) = (1 # 4)%Q :: rest.
Proof.
  intro s.
  assert (Hpos : positive_weights s)
    by (repeat constructor).
  assert (Hcons : weights_consistent s) by reflexivity.
  split; [exact Hpos|]. split; [exact Hcons|].
  destruct (C3_sequential_progress_formula s Hpos Hcons) as (R & _ & H & _).
  split; [exact R|].
  exact (H eq_refl _ (propagate Done) eq_refl eq_refl).
Defined.

(** The run on weights [[1, 3]], evaluated: job 0 reports local progress
    1.0, job 1 reports nothing, and the sink has received 0.25 only. *)
Example sequential_1_3 :
  let s' := final (run_single_threaded_suite (registered jobs_1_3 default_logging)) in
  callbacks s' = [(0%nat, 1%Q)] /\
  reported (logging s') = [(1 # 4)%Q] /\
  invoked s' = [0; 1].
Proof. vm_compute. repeat split; reflexivity. Qed.

(** ** Repeating a sequential run *)





Lemma extends_refl (s : state) : extends s s.
Proof.
  split; [apply seq_frame_refl|]. exists [], []. now rewrite !app_nil_r.
Qed.

Lemma extends_trans (s1 s2 s3 : state) :
  extends s1 s2 -> extends s2 s3 -> extends s1 s3.
Proof.
  intros (F & r & e & R & E) (F' & r' & e' & R' & E').
  split; [eapply seq_frame_trans; eauto|].
  exists (r ++ r'), (e ++ e'). rewrite R', E', R, E, !app_assoc. auto.
Qed.



Lemma extends_logged (q : Q) (o : option exn) (n : nat) (s : state) :
  extends s (logged q o n s).
Proof.
  split; [apply seq_frame_logged|]. exists [q], [o]. auto.
Qed.

Lemma extends_stored (i : nat) (p : Q) (s : state) : extends s (stored i p s).
Proof.
  split; [apply seq_frame_stored|]. exists [], []. simpl. now rewrite !app_nil_r.
Qed.

Lemma log_progress_extends (q : Q) (s : state) :
  extends s (final (log_progress q s)).
Proof.
  destruct (log_progress_ended q s) as (o & n & E).
  rewrite E, final_ended. apply extends_logged.
Qed.





Lemma local_callback_extends (i : nat) (p : Q) (start T : Z) (s : state) :
  extends s (final ((note_callback i p ;; _progress_local i p start T) s)).
Proof.
  rewrite local_callback_unfold.
  destruct (nth_error (_jobs (self s)) i) as [j|].
  - destruct (T =? 0); simpl.
    + apply extends_stored.
    + eapply extends_trans; [apply (extends_stored i p)|apply log_progress_extends].
  - simpl. split; [unfold seq_frame; simpl; auto|].
    exists [], []. simpl. now rewrite !app_nil_r.
Qed.


Lemma call_extends (i : nat) (start T : Z) (f : work) :
  forall s,
    extends s (final (call f (fun p => note_callback i p ;;
                                       _progress_local i p start T) s)).
Proof.
  induction f as [|e|p k IH]; intro s; simpl; try apply extends_refl.
  pose proof (local_callback_extends i p start T s) as H.
  destruct ((note_callback i p ;; _progress_local i p start T) s) as [[] s1|e1 s1|b1 s1];
    simpl in H; auto; eapply extends_trans; eauto.
Qed.










(** ** Bounds on [job.progress] and the last report *)

Lemma Forall_update {A : Type} (P : A -> Prop) (f : A -> A) (l : list A) :
  forall i,
    Forall P l ->
    (forall x, nth_error l i = Some x -> P x -> P (f x)) ->
    Forall P (update i f l).
Proof.
  induction l as [|x l IH]; intros [|i] H Hf; simpl; auto;
    inversion H; subst; constructor; auto.
Qed.

Lemma unit_le_weight (p : Q) (w : Z) :
  0 < w -> (0 <= p)%Q -> (p <= 1)%Q -> (p <= inject_Z w)%Q.
Proof.
  intros Hw _ Hp. apply Qle_trans with (1 := Hp).
  change 1%Q with (inject_Z 1). rewrite <- Zle_Qle. lia.
Qed.

Lemma positive_weights_nth (l : list _Job) (i : nat) (j : _Job) :
  Forall (fun j => 0 < weight j) l -> nth_error l i = Some j -> 0 < weight j.
Proof.
  intros H Hn. rewrite Forall_forall in H. apply H.
  eapply nth_error_In; eauto.
Qed.

Lemma weight_le_sum (l : list _Job) :
  Forall (fun j => 0 < weight j) l ->
  forall i j, nth_error l i = Some j -> weight j <= sum_weights l.
Proof.
  unfold sum_weights.
  induction 1 as [|x l Hx Hl IH]; intros [|i] j Hn; simpl in *; try discriminate.
  - inversion Hn; subst.
    assert (0 <= fold_right Z.add 0 (map weight l)).
    { clear -Hl. induction Hl; simpl; lia. }
    lia.
  - specialize (IH i j Hn). lia.
Qed.

Lemma seq_frame_positive (s s' : state) :
  seq_frame s s' -> positive_weights s -> positive_weights s'.
Proof.
  intros (A & _) H. unfold positive_weights in *.
  apply map_shape_weights in A.
  apply (Forall_map weight (fun w => 0 < w)).
  rewrite A. now apply (Forall_map weight (fun w => 0 < w)).
Qed.

Lemma seq_frame_consistent (s s' : state) :
  seq_frame s s' -> weights_consistent s -> weights_consistent s'.
Proof.
  intros (A & B & _) H. unfold weights_consistent, sum_weights in *.
  apply map_shape_weights in A. now rewrite A, B.
Qed.

Lemma update_progress_bounded (l : list _Job) (i : nat) (q : Q) :
  Forall job_bounded l ->
  (forall j, nth_error l i = Some j -> (0 <= q)%Q /\ (q <= inject_Z (weight j))%Q) ->
  Forall job_bounded (update i (set_progress q) l).
Proof.
  intros H Hq. apply Forall_update; auto.
  intros x Hx _. unfold job_bounded. simpl. auto.
Qed.

Lemma call_bounded (i : nat) (start T : Z) (f : work) :
  unit_reports f ->
  forall s,
    positive_weights s ->
    progress_bounded s ->
    progress_bounded
      (final (call f (fun p => note_callback i p ;; _progress_local i p start T) s)).
Proof.
  induction f as [|e|p k IH]; intros Hu s Hpos Hb; simpl; auto.
  destruct Hu as (Hp0 & Hp1 & Hk).
  pose proof (local_callback_final i p start T s) as (Hj & _ & _ & F).
  assert (Hb1 : progress_bounded
                  (final ((note_callback i p ;; _progress_local i p start T) s))).
  { unfold progress_bounded. rewrite Hj. apply update_progress_bounded; auto.
    intros j Hn. split; auto. apply unit_le_weight; auto.
    eapply positive_weights_nth; eauto. }
  assert (Hpos1 := seq_frame_positive _ _ F Hpos).
  destruct ((note_callback i p ;; _progress_local i p start T) s)
    as [[] s1|e1 s1|b1 s1]; simpl in *; auto.
Qed.

Lemma seq_frame_unit_jobs (s s' : state) :
  seq_frame s s' -> unit_jobs s -> unit_jobs s'.
Proof.
  intros (A & _) H. unfold unit_jobs in *.
  assert (E : map func (_jobs (self s')) = map func (_jobs (self s))).
  { assert (G : forall l, map func l = map (fun t => snd (fst (fst t))) (map shape l))
      by (intro l; rewrite map_map; reflexivity).
    now rewrite (G (_jobs (self s'))), (G (_jobs (self s))), A. }
  apply (Forall_map func unit_reports). rewrite E.
  now apply (Forall_map func unit_reports).
Qed.

Lemma for_jobs_bounded (js : list _Job) :
  forall (i : nat) (cum : Z) (s : state),
    positive_weights s ->
    unit_jobs s ->
    progress_bounded s ->
    progress_bounded (final (for_jobs js i cum s)).
Proof.
  induction js as [|x js IH]; intros i cum s Hpos Hu Hb; simpl; auto.
  rewrite run_local_unfold.
  destruct (nth_error (_jobs (self s)) i) as [j|] eqn:Hn; simpl; auto.
  set (s0 := mkState (self s) (logging s) (pipes s) (closed s)
                     (invoked s ++ [id j]) (callbacks s)).
  assert (Huj : unit_reports (func j)).
  { unfold unit_jobs in Hu. rewrite Forall_forall in Hu. apply Hu.
    eapply nth_error_In; eauto. }
  pose proof (call_bounded i cum (_total_weight (self s)) (func j) Huj s0 Hpos Hb) as Hb1.
  pose proof (call_extends i cum (_total_weight (self s)) (func j) s0) as (F & _).
  destruct (call (func j) _ s0) as [[] s1|e1 s1|b1 s1]; simpl in *; auto.
  destruct (nth_error (_jobs (self s1)) i) as [j1|]; simpl; auto.
  apply IH; auto.
  - exact (seq_frame_positive s0 s1 F Hpos).
  - exact (seq_frame_unit_jobs s0 s1 F Hu).
Qed.

Lemma py_index_lt (n : nat) (z : Z) (i : nat) :
  py_index n z = Some i -> (i < n)%nat.
Proof.
  unfold py_index.
  destruct ((0 <=? z) && (z <? Z.of_nat n)) eqn:E1.
  - intro H; injection H as <-. apply andb_prop in E1 as [A B].
    apply Z.leb_le in A. apply Z.ltb_lt in B. lia.
  - destruct ((- Z.of_nat n <=? z) && (z <? 0)) eqn:E2; [|discriminate].
    intro H; injection H as <-. apply andb_prop in E2 as [A B].
    apply Z.leb_le in A. apply Z.ltb_lt in B. lia.
Qed.

(** The two ways [_progress_reporter] can end: nothing has changed (the
    index is out of range, or the total weight is zero), or the progress
    has been stored and the aggregate handed to [log_progress]. *)
Lemma progress_reporter_final (p : Q) (pid : Z) (s : state) :
  let r := _progress_reporter p pid s in
  (r = Raised IndexError s /\ py_index (length (_jobs (self s))) pid = None) \/
  (r = Raised ZeroDivisionError s /\ _total_weight (self s) = 0) \/
  (exists i j o n,
      py_index (length (_jobs (self s))) pid = Some i /\
      nth_error (_jobs (self s)) i = Some j /\
      _total_weight (self s) <> 0 /\
      r = ended o (logged (sum_progress (after_report p i (weight j) s)) o n
                          (set_jobs (after_report p i (weight j) s) s))).
Proof.
  unfold _progress_reporter.
  destruct (py_index (length (_jobs (self s))) pid) as [i|] eqn:Hi; simpl; auto.
  destruct (nth_error (_jobs (self s)) i) as [j|] eqn:Hn.
  2:{ apply py_index_lt in Hi. apply nth_error_None in Hn. lia. }
  unfold bind at 1, truediv. rewrite Qeq_bool_inject_Z.
  destruct (_total_weight (self s) =? 0) eqn:HT; unfold raise, ret.
  - apply Z.eqb_eq in HT. right. left. auto.
  - apply Z.eqb_neq in HT. right. right. exists i, j.
    unfold bind, modify. cbv beta iota.
    match goal with |- context [log_progress ?q ?s0] =>
      destruct (log_progress_ended q s0) as (o & n & E); rewrite E end.
    exists o, n. repeat split; auto.
Qed.

Lemma progress_reporter_frame (p : Q) (pid : Z) (s : state) :
  seq_frame s (final (_progress_reporter p pid s)) /\
  _readers (self (final (_progress_reporter p pid s))) = _readers (self s) /\
  map proc (_jobs (self (final (_progress_reporter p pid s)))) = map proc (_jobs (self s)).
Proof.
  destruct (progress_reporter_final p pid s)
    as [(E & _)|[(E & _)|(i & j & o & n & _ & _ & _ & E)]]; rewrite E.
  - simpl. split; [apply seq_frame_refl|auto].
  - simpl. split; [apply seq_frame_refl|auto].
  - rewrite final_ended. unfold after_report. split; [|split].
    + unfold seq_frame. simpl. rewrite map_shape_update_progress. auto.
    + reflexivity.
    + simpl. apply map_update. reflexivity.
Qed.

Lemma weighted_progress_bounded (w T : Z) (p : Q) :
  0 < w -> w <= T -> (0 <= p)%Q -> (p <= 1)%Q ->
  (0 <= inject_Z w / inject_Z T * p)%Q /\
  (inject_Z w / inject_Z T * p <= inject_Z w)%Q.
Proof.
  intros Hw HT Hp0 Hp1.
  assert (HTq : (0 < inject_Z T)%Q)
    by (change 0%Q with (inject_Z 0); rewrite <- Zlt_Qlt; lia).
  assert (Hq0 : (0 <= inject_Z w / inject_Z T)%Q).
  { apply Qle_shift_div_l; auto. rewrite Qmult_0_l.
    change 0%Q with (inject_Z 0). rewrite <- Zle_Qle. lia. }
  assert (Hq1 : (inject_Z w / inject_Z T <= 1)%Q).
  { apply Qle_shift_div_r; auto. rewrite Qmult_1_l. rewrite <- Zle_Qle. lia. }
  assert (Hw1 : (1 <= inject_Z w)%Q)
    by (change 1%Q with (inject_Z 1); rewrite <- Zle_Qle; lia).
  set (q := (inject_Z w / inject_Z T)%Q) in *.
  split; nra.
Qed.

Lemma last_reported_logged (q : Q) (o : option exn) (n : nat) (s : state) :
  last_reported (logged q o n s) = Some q.
Proof.
  unfold last_reported. simpl. now rewrite rev_app_distr.
Qed.

Lemma progress_reporter_bounded (p : Q) (pid : Z) (s : state) :
  positive_weights s ->
  weights_consistent s ->
  progress_bounded s ->
  (0 <= p)%Q -> (p <= 1)%Q ->
  progress_bounded (final (_progress_reporter p pid s)).
Proof.
  intros Hpos Hcons Hb Hp0 Hp1.
  destruct (progress_reporter_final p pid s)
    as [(E & _)|[(E & _)|(i & j & o & n & _ & Hn & HT & E)]]; rewrite E; auto.
  rewrite final_ended.
  unfold progress_bounded, after_report. simpl.
  apply update_progress_bounded; auto.
  intros j' Hn'. rewrite Hn in Hn'. injection Hn' as <-.
  apply weighted_progress_bounded; auto.
  - eapply positive_weights_nth; eauto.
  - rewrite Hcons. eapply weight_le_sum; eauto.
Qed.

Lemma progress_reporter_inv (p : Q) (pid : Z) (s : state) :
  (0 <= p)%Q -> (p <= 1)%Q ->
  par_inv s -> par_inv (final (_progress_reporter p pid s)).
Proof.
  intros Hp0 Hp1 (Hpos & Hcons & Hb).
  destruct (progress_reporter_frame p pid s) as (F & _).
  repeat split.
  - eapply seq_frame_positive; eauto.
  - eapply seq_frame_consistent; eauto.
  - apply progress_reporter_bounded; auto.
Qed.

(** An update of the process states leaves the invariant alone. *)
Lemma par_inv_update_proc (f : _Job -> _Job) (k : nat) (s : state) :
  (forall j, weight (f j) = weight j /\ progress (f j) = progress j) ->
  par_inv s -> par_inv (set_jobs (update k f (_jobs (self s))) s).
Proof.
  intros Hf (Hpos & Hcons & Hb). repeat split.
  - unfold positive_weights. simpl. apply Forall_update; auto.
    intros x _ Hx. now rewrite (proj1 (Hf x)).
  - unfold weights_consistent, sum_weights in *. simpl.
    rewrite map_update; auto. intro x. apply Hf.
  - unfold progress_bounded. simpl. apply Forall_update; auto.
    intros x _ (A & B). unfold job_bounded.
    destruct (Hf x) as (W & P). now rewrite W, P.
Qed.

Lemma exited_same (j : _Job) :
  weight (exited j) = weight j /\ progress (exited j) = progress j.
Proof. unfold exited. destruct (proc j); auto. Qed.

Lemma mark_exited_inv (k : nat) (s : state) :
  par_inv s -> par_inv (mark_exited k s).
Proof. apply par_inv_update_proc. apply exited_same. Qed.

Lemma absorb_exits_inv (obs : list observation) :
  forall s, par_inv s -> par_inv (absorb_exits obs s).
Proof.
  induction obs as [|o obs IH]; intros s Hs; simpl; auto.
  destruct o; auto. apply IH. now apply mark_exited_inv.
Qed.

Lemma wait_loop_inv (obs : list observation) :
  forall (i : nat) (s : state),
    Forall unit_observation obs ->
    par_inv s ->
    par_inv (final (wait_loop obs i s)).
Proof.
  induction obs as [|o obs IH]; intros i s Ho Hs.
  - simpl. destruct (_readers (self s)) as [[|r rs]|]; simpl; auto.
  - simpl. destruct (_readers (self s)) as [[|r rs]|]; simpl; auto.
    inversion Ho as [|o' obs' Hu Ho']; subst.
    destruct o as [|[p pid| |]|abrupt|e|k]; simpl; auto.
    + destruct Hu as (Hp0 & Hp1).
      pose proof (progress_reporter_inv p pid s Hp0 Hp1 Hs) as Hr.
      destruct (_progress_reporter p pid s) as [[] s1|e s1|b s1]; simpl in *; auto.
    + apply IH; auto. now apply mark_exited_inv.
Qed.

Lemma join_inv (i : nat) (s : state) :
  par_inv s -> par_inv (final (join i s)).
Proof.
  intros Hs. unfold join.
  destruct (nth_error (_jobs (self s)) i) as [j|]; simpl; auto.
  destruct (proc j); simpl; auto; apply par_inv_update_proc; auto.
Qed.

Lemma for_each_inv (body : nat -> M unit) :
  (forall i s, par_inv s -> par_inv (final (body i s))) ->
  forall (n i : nat) (s : state),
    par_inv s -> par_inv (final (for_each n i body s)).
Proof.
  intros Hbody. induction n as [|n IH]; intros i s Hs; simpl; auto.
  unfold bind. specialize (Hbody i s Hs).
  destruct (body i s) as [[] s1|e s1|b s1]; simpl in *; auto.
Qed.

Lemma wait_unfold (obs : list observation) (s : state) :
  _wait obs s =
  match wait_loop obs 0 s with
  | Returned rest s1 =>
      for_each (length (_jobs (self (absorb_exits rest s1)))) 0 join
               (absorb_exits rest s1)
  | Raised e s1 => Raised e s1
  | Blocked b s1 => Blocked b s1
  end.
Proof.
  unfold _wait, bind. destruct (wait_loop obs 0 s); reflexivity.
Qed.

Lemma wait_inv (obs : list observation) (s : state) :
  Forall unit_observation obs ->
  par_inv s ->
  par_inv (final (_wait obs s)).
Proof.
  intros Ho Hs. rewrite wait_unfold.
  pose proof (wait_loop_inv obs 0 s Ho Hs) as H.
  destruct (wait_loop obs 0 s) as [rest s1|e s1|b s1]; simpl in *; auto.
  apply for_each_inv; [apply join_inv|]. now apply absorb_exits_inv.
Qed.

(** C4 (as stated, refuted).  Sequential run over weights [[1, 3]], both
    jobs reporting local progress 1.0: every job ends with
    [0 <= progress <= weight], the last value reported is 1, and
    [sum(job.progress) / total_weight] is 2/4.  One message [(1.0, 0)]
    received in parallel mode over weights [[1, 1]]: the value reported is
    1/2, and [sum(job.progress) / total_weight] is 1/4. *)
Lemma C4_counterexample :
  (let s := final (run_single_threaded_suite (registered jobs_1_3_both default_logging)) in
   unit_jobs (registered jobs_1_3_both default_logging) /\
   exists q, last_reported s = Some q /\ (q == 1)%Q /\
             ~ (q == sum_progress (_jobs (self s)) / inject_Z (_total_weight (self s)))%Q) /\
  (let s := final (_progress_reporter 1 0 (registered jobs_1_1 default_logging)) in
   exists q, last_reported s = Some q /\ (q == 1 # 2)%Q /\
             ~ (q == sum_progress (_jobs (self s)) / inject_Z (_total_weight (self s)))%Q).
Proof.
  split.
  - split.
    + repeat constructor; try discriminate; intros []; simpl; auto.
    + eexists. split; [vm_compute; reflexivity|].
      split; [reflexivity|]. vm_compute. discriminate.
  - eexists. split; [vm_compute; reflexivity|].
    split; [reflexivity|]. vm_compute. discriminate.
Qed.

Lemma progress_local_final (i : nat) (p : Q) (start T : Z) (s : state) (j : _Job) :
  nth_error (_jobs (self s)) i = Some j ->
  T <> 0 ->
  exists o n,
    final (_progress_local i p start T s) =
    logged ((inject_Z start + inject_Z (weight j) * p) / inject_Z T)%Q o n
           (set_jobs (update i (set_progress p) (_jobs (self s))) s).
Proof.
  intros Hn HT. unfold _progress_local. simpl.
  rewrite nth_error_update, Hn. simpl.
  unfold bind, truediv. rewrite (Qeq_bool_inject_Z_0 T HT). unfold ret.
  match goal with |- context [log_progress ?q ?s0] =>
    destruct (log_progress_ended q s0) as (o & n & E); rewrite E end.
  exists o, n. apply final_ended.
Qed.

Lemma last_reported_app (s s' : state) (l : list Q) (q : Q) :
  reported (logging s') = reported (logging s) ++ l ++ [q] ->
  last_reported s' = Some q.
Proof.
  intro H. unfold last_reported. rewrite H, app_assoc, rev_app_distr. reflexivity.
Qed.

(** C4 (amended).  With positive weights and [_total_weight] their sum,
    [0 <= job.progress <= job.weight] is preserved by every report of a
    local progress in [[0, 1]], hence holds throughout and after a run,
    in both modes.  In sequential mode [job.progress] holds the local
    progress: after any invocation of [_progress_local], and at the end
    of a run whose last callback invocation was made by job [i], the last
    value reported is [(start_i + weight_i * job_i.progress) /
    total_weight], [start_i] being the sum of the weights before [i].  In
    parallel mode [job.progress] holds [weight / total_weight * local
    progress]: a message [(p, id)] stores that value in the job that [id]
    denotes, leaves the other jobs alone, and the value reported is
    [sum(job.progress)]. *)
Theorem C4_progress_bounds_and_last_report :
  forall s : state,
    positive_weights s ->
    weights_consistent s ->
    progress_bounded s ->
    (forall (i : nat) (start : Z) (p : Q) (j : _Job),
        nth_error (_jobs (self s)) i = Some j ->
        (0 <= p)%Q -> (p <= 1)%Q ->
        let s' := final (_progress_local i p start (_total_weight (self s)) s) in
        progress_bounded s' /\
        exists j',
          nth_error (_jobs (self s')) i = Some j' /\
          progress j' = p /\
          last_reported s' =
          Some ((inject_Z start + inject_Z (weight j') * progress j')
                / inject_Z (_total_weight (self s')))%Q) /\
    (unit_jobs s -> progress_bounded (final (run_single_threaded_suite s))) /\
    (forall (before : list (nat * Q)) (i : nat) (p : Q),
        let s' := final (run_single_threaded_suite s) in
        callbacks s' = callbacks s ++ before ++ [(i, p)] ->
        exists j',
          nth_error (_jobs (self s')) i = Some j' /\
          progress j' = p /\
          last_reported s' =
          Some ((inject_Z (start_of (_jobs (self s')) i)
                 + inject_Z (weight j') * progress j')
                / inject_Z (_total_weight (self s')))%Q) /\
    (forall (p : Q) (pid : Z),
        (0 <= p)%Q -> (p <= 1)%Q ->
        let s' := final (_progress_reporter p pid s) in
        progress_bounded s' /\
        forall i : nat,
          py_index (length (_jobs (self s))) pid = Some i ->
          exists j j',
            nth_error (_jobs (self s)) i = Some j /\
            nth_error (_jobs (self s')) i = Some j' /\
            progress j' =
            (inject_Z (weight j) / inject_Z (_total_weight (self s)) * p)%Q /\
            (forall m, m <> i ->
                       nth_error (_jobs (self s')) m = nth_error (_jobs (self s)) m) /\
            last_reported s' = Some (sum_progress (_jobs (self s')))) /\
    (forall obs : list observation,
        Forall unit_observation obs ->
        progress_bounded (final (_wait obs s))).
Proof.
  intros s Hpos Hcons Hb.
  assert (HT : forall i j, nth_error (_jobs (self s)) i = Some j ->
                           _total_weight (self s) <> 0).
  { intros i j Hn. rewrite Hcons. pose proof (weight_le_sum _ Hpos i j Hn).
    pose proof (positive_weights_nth _ i j Hpos Hn). lia. }
  split; [|split; [|split; [|split]]].
  - intros i start p j Hn Hp0 Hp1 s'.
    destruct (progress_local_final i p start _ s j Hn (HT i j Hn)) as (o & n & E).
    subst s'. rewrite E.
    split.
    + unfold progress_bounded. simpl. apply update_progress_bounded; auto.
      intros j' Hn'. split; auto. apply unit_le_weight; auto.
      eapply positive_weights_nth; eauto.
    + exists (set_progress p j). simpl. rewrite nth_error_update, Hn.
      repeat split. apply last_reported_logged.
  - intro Hu. unfold run_single_threaded_suite. now apply for_jobs_bounded.
  - intros before i p s' Hlast. subst s'. unfold run_single_threaded_suite in *.
    destruct (for_jobs_spec (_jobs (self s)) 0 0 s eq_refl eq_refl)
      as (F & cbs & Hcb & Hrep & Hjobs & Hin).
    { intro Hne.
      destruct (nth_error (_jobs (self s)) 0) as [a|] eqn:E; [exact (HT 0%nat a E)|].
      destruct (_jobs (self s)); [congruence|discriminate]. }
    set (s' := final (for_jobs (_jobs (self s)) 0 0 s)) in *.
    rewrite Hcb in Hlast. apply app_inv_head in Hlast. subst cbs.
    assert (Hi : (i < length (_jobs (self s)))%nat).
    { rewrite Forall_forall in Hin. apply (Hin (i, p)).
      apply in_or_app. right. left. reflexivity. }
    destruct (nth_error (_jobs (self s)) i) as [j|] eqn:Hn;
      [|apply nth_error_None in Hn; lia].
    destruct (store_all_last before i p (_jobs (self s)) j Hn) as (j' & Hn' & Hp & Hsh).
    rewrite <- Hjobs in Hn'.
    exists j'. split; [exact Hn'|]. split; [exact Hp|].
    rewrite map_app in Hrep. simpl in Hrep.
    rewrite (last_reported_app s s' _ _ Hrep). f_equal.
    destruct F as (A & B & _).
    unfold overall. cbn [fst snd]. rewrite B, Hp.
    rewrite (start_of_weights _ _ i (map_shape_weights _ _ A)).
    unfold weight_at. rewrite Hn, (shape_weight _ _ Hsh). reflexivity.
  - intros p pid Hp0 Hp1 s'. split.
    + now apply progress_reporter_bounded.
    + intros i Hi. subst s'.
      destruct (progress_reporter_final p pid s)
        as [(_ & E)|[(_ & E)|(i' & j & o & n & Hi' & Hn & _ & E)]].
      * congruence.
      * exfalso. apply py_index_lt in Hi.
        destruct (nth_error (_jobs (self s)) i) as [j|] eqn:Hn;
          [|apply nth_error_None in Hn; lia].
        exact (HT i j Hn E).
      * rewrite Hi in Hi'. injection Hi' as <-.
        rewrite E, final_ended.
        exists j, (set_progress (inject_Z (weight j) / inject_Z (_total_weight (self s)) * p)%Q j).
        split; [exact Hn|]. unfold after_report. simpl.
        rewrite nth_error_update, Hn. split; [reflexivity|]. split; [reflexivity|].
        split.
        -- intros m Hm. apply nth_error_update_other. auto.
        -- apply last_reported_logged.
  - intros obs Ho. apply wait_inv; auto. repeat split; auto.
Qed.

Lemma C4_progress_bounds_and_last_report_witness :
  let s := registered jobs_1_3_both default_logging in
  positive_weights s /\
  weights_consistent s /\
  progress_bounded s /\
  unit_jobs s /\
  progress_bounded (final (run_single_threaded_suite s)) /\
  (exists j',
      nth_error (_jobs (self (final (run_single_threaded_suite s)))) 1 = Some j' /\
      progress j' = 1%Q /\
      last_reported (final (run_single_threaded_suite s)) =
      Some ((inject_Z (start_of (_jobs (self (final (run_single_threaded_suite s)))) 1)
             + inject_Z (weight j') * progress j')
            / inject_Z (_total_weight (self (final (run_single_threaded_suite s)))))%Q) /\
  (exists j j',
      nth_error (_jobs (self s)) 1 = Some j /\
      nth_error (_jobs (self (final (_progress_reporter (1 # 2) 1 s)))) 1 = Some j' /\
      progress j' = (inject_Z (weight j) / inject_Z (_total_weight (self s)) * (1 # 2))%Q).
Proof.
  intro s.
  assert (Hpos : positive_weights s) by (repeat constructor).
  assert (Hcons : weights_consistent s) by reflexivity.
  assert (Hb : progress_bounded s)
    by (repeat constructor; simpl; discriminate).
  assert (Hu : unit_jobs s)
    by (repeat constructor; try discriminate; intros []; simpl; auto).
  repeat (split; [assumption|]).
  destruct (C4_progress_bounds_and_last_report s Hpos Hcons Hb) as (_ & H2 & H3 & H4 & _).
  split; [exact (H2 Hu)|]. split.
  - apply (H3 [(0%nat, 1%Q)] 1%nat 1%Q). vm_compute. reflexivity.
  - assert (P0 : (0 <= 1 # 2)%Q) by discriminate.
    assert (P1 : (1 # 2 <= 1)%Q) by discriminate.
    destruct (H4 (1 # 2)%Q 1 P0 P1) as (_ & H).
    destruct (H 1%nat eq_refl) as (j & j' & A & B & C & _).
    exists j, j'. auto.
Defined.

(** ** The parallel wait loop *)

Lemma remove_first_length (x : conn) (l : list conn) :
  In x l -> length (remove_first x l) = pred (length l).
Proof.
  induction l as [|y l IH]; simpl; [tauto|].
  intros [->|H].
  - now rewrite Nat.eqb_refl.
  - destruct (Nat.eqb x y); auto. simpl. rewrite IH; auto.
    destruct l; simpl in *; [tauto|reflexivity].
Qed.

Lemma same_but_readers_refl (s : state) : same_but_readers s s.
Proof. unfold same_but_readers; repeat split; auto. Qed.

Lemma same_but_readers_trans (s1 s2 s3 : state) :
  same_but_readers s1 s2 -> same_but_readers s2 s3 -> same_but_readers s1 s3.
Proof.
  unfold same_but_readers.
  intros (A1 & A2 & A3 & A4 & A5 & A6) (B1 & B2 & B3 & B4 & B5 & B6).
  repeat split; congruence.
Qed.

Lemma same_but_readers_set (rs : list conn) (s : state) :
  same_but_readers s (set_readers rs s).
Proof. unfold same_but_readers; repeat split; auto. Qed.

Lemma polled_in (rs : list conn) (i : nat) : rs <> [] -> In (polled rs i) rs.
Proof.
  intro H. unfold polled. apply nth_In.
  destruct (i <? length rs)%nat eqn:E.
  - now apply Nat.ltb_lt in E.
  - destruct rs; [congruence|simpl; lia].
Qed.

(** One step of the loop on an end of file: the endpoint that was polled
    is the one removed. *)
Lemma wait_loop_eof (abrupt : bool) (obs : list observation) (i : nat) (s : state)
      (rs : list conn) :
  _readers (self s) = Some rs ->
  rs <> [] ->
  wait_loop (EndOfFile abrupt :: obs) i s =
  wait_loop obs (S (if (i <? length rs)%nat then i else O))
            (set_readers (remove_first (polled rs i) rs) s).
Proof.
  intros Hr Hne. destruct rs as [|r rs0]; [congruence|].
  unfold polled.
  rewrite (nth_indep (r :: rs0) 0%nat r).
  - cbn [wait_loop]. rewrite Hr. reflexivity.
  - destruct (i <? length (r :: rs0))%nat eqn:E.
    + now apply Nat.ltb_lt in E.
    + simpl. lia.
Qed.


(** A stretch of polls that find nothing or the end of a file: each end
    of file removes one endpoint from the active set and nothing is
    raised; the loop is left when as many ends of file as endpoints have
    been seen, handing back the observations that follow, and goes on
    with the rest of the observations otherwise. *)
Lemma wait_loop_quiet (pre : list observation) :
  forall (i : nat) (s : state) (rs : list conn) (rest : list observation),
    _readers (self s) = Some rs ->
    forallb quiet pre = true ->
    ((closures pre < length rs)%nat ->
     exists i' s' rs',
       same_but_readers s s' /\
       _readers (self s') = Some rs' /\
       length rs' = (length rs - closures pre)%nat /\
       wait_loop (pre ++ rest) i s = wait_loop rest i' s') /\
    ((length rs <= closures pre)%nat ->
     exists s' used unused,
       same_but_readers s s' /\
       _readers (self s') = Some [] /\
       pre = used ++ unused /\
       wait_loop (pre ++ rest) i s = Returned (unused ++ rest) s').
Proof.
  induction pre as [|o pre IH]; intros i s rs rest Hr Hq.
  - simpl. split.
    + intros _. exists i, s, rs. rewrite Nat.sub_0_r.
      repeat split; auto using same_but_readers_refl.
    + intro Hl. assert (rs = []) by (destruct rs; simpl in *; [auto|lia]). subst rs.
      exists s, [], []. split; [apply same_but_readers_refl|]. repeat split; auto.
      destruct rest; simpl; rewrite Hr; reflexivity.
  - simpl in Hq. apply andb_prop in Hq as [Ho Hq].
    destruct rs as [|r rs0].
    + split; [simpl; lia|]. intros _. exists s, [], (o :: pre).
      split; [apply same_but_readers_refl|]. repeat split; auto.
      simpl. rewrite Hr. reflexivity.
    + destruct o as [|m|abrupt|e|k]; try discriminate Ho.
      * simpl. rewrite Hr.
        destruct (IH (S (if (i <? S (length rs0))%nat then i else 0%nat))
                     s (r :: rs0) rest Hr Hq) as [IH1 IH2].
        split; [exact IH1|].
        intro Hl. destruct (IH2 Hl) as (s2 & used & unused & S2 & R2 & P2 & E2).
        exists s2, (NoData :: used), unused.
        split; [exact S2|]. split; [exact R2|]. split; [simpl; congruence|exact E2].
      * rewrite <- app_comm_cons.
        rewrite (wait_loop_eof abrupt (pre ++ rest) i s (r :: rs0) Hr) by discriminate.
        set (i' := if (i <? length (r :: rs0))%nat then i else 0%nat).
        assert (Hlen : length (remove_first (polled (r :: rs0) i) (r :: rs0)) = length rs0)
          by (rewrite remove_first_length; [reflexivity|apply polled_in; discriminate]).
        destruct (IH (S i') (set_readers (remove_first (polled (r :: rs0) i) (r :: rs0)) s)
                     (remove_first (polled (r :: rs0) i) (r :: rs0)) rest eq_refl Hq)
          as [IH1 IH2].
        rewrite Hlen in IH1, IH2.
        split.
        -- intro Hl. simpl in Hl.
           destruct IH1 as (i2 & s2 & rs2 & S2 & R2 & L2 & E2); [lia|].
           exists i2, s2, rs2. split.
           ++ eapply same_but_readers_trans; [apply same_but_readers_set|exact S2].
           ++ repeat split; auto.
        -- intro Hl. simpl in Hl.
           destruct IH2 as (s2 & used & unused & S2 & R2 & P2 & E2); [lia|].
           exists s2, (EndOfFile abrupt :: used), unused. split.
           ++ eapply same_but_readers_trans; [apply same_but_readers_set|exact S2].
           ++ split; [exact R2|]. split; [simpl; congruence|exact E2].
Qed.







(** ** Leaving the wait loop, joining the workers *)



(** The loop is left as soon as the active set is empty. *)
Lemma wait_loop_empty (obs : list observation) (i : nat) (s : state) :
  _readers (self s) = Some [] -> wait_loop obs i s = Returned obs s.
Proof.
  intro H. destruct obs; simpl; rewrite H; reflexivity.
Qed.

Lemma joined_exited (j : _Job) : joined (exited j) = joined j.
Proof.
  unfold exited, joined. destruct (proc j) eqn:E; simpl; rewrite ?E; reflexivity.
Qed.




Lemma absorb_exits_joined (obs : list observation) :
  forall s, map joined (_jobs (self (absorb_exits obs s))) = map joined (_jobs (self s)).
Proof.
  induction obs as [|o obs IH]; intro s; simpl; auto.
  destruct o; auto. rewrite IH. unfold mark_exited. simpl.
  apply map_update. apply joined_exited.
Qed.




(** ** The worker that fails *)






(** For comparison, the worker whose work function returns: [run] closes
    the write end itself, and the pipe delivers the same kind of
    stream. *)
Remark worker_returns_normally (w : worker) :
  fst (run w) = None ->
  writer_closed (snd (run w)) = true /\
  fst (bootstrap w) = 0 /\
  delivered (fst (bootstrap w)) (snd (bootstrap w)) =
  map (fun m => Data (Pair (fst m) (snd m))) (sent (snd (run w))) ++ [EndOfFile false].
Proof.
  unfold bootstrap, run.
  destruct (worker_call (func (job w)) w) as [[e0|] w0]; simpl; [discriminate|].
  intros _. repeat split.
Qed.
(** * Further properties of the code *)

(** ** Sequential execution: order of invocation *)

(** A call of the work function of job [i] records no invocation of its
    own and leaves the other jobs as they are. *)
Lemma call_invoked (i : nat) (start T : Z) (f : work) :
  forall s,
    let s' := final (call f (fun p => note_callback i p ;;
                                      _progress_local i p start T) s) in
    invoked s' = invoked s /\
    forall m, m <> i -> nth_error (_jobs (self s')) m = nth_error (_jobs (self s)) m.
Proof.
  induction f as [|e|p k IH]; intro s; simpl; auto.
  pose proof (local_callback_final i p start T s) as (Hj & Hi & _).
  destruct ((note_callback i p ;; _progress_local i p start T) s)
    as [[] s1|e1 s1|b1 s1]; simpl in *.
  - destruct (IH None s1) as (A & B). split; [congruence|].
    intros m Hm. rewrite (B m Hm), Hj. apply nth_error_update_other. auto.
  - destruct (IH (Some e1) s1) as (A & B). split; [congruence|].
    intros m Hm. rewrite (B m Hm), Hj. apply nth_error_update_other. auto.
  - split; auto. intros m Hm. rewrite Hj. apply nth_error_update_other. auto.
Qed.

Lemma map_shape_ids (l l' : list _Job) :
  map shape l = map shape l' -> map id l = map id l'.
Proof.
  intro H.
  assert (E : forall k, map id k = map (fun t => fst (fst (fst (fst t)))) (map shape k))
    by (intro k; rewrite map_map; reflexivity).
  now rewrite (E l), (E l'), H.
Qed.

Lemma firstn_skipn_S {A : Type} (l : list A) :
  forall i x k,
    nth_error l i = Some x ->
    firstn (S k) (skipn i l) = x :: firstn k (skipn (S i) l).
Proof.
  induction l as [|y l IH]; intros [|i] x k H; simpl in *; try discriminate.
  - injection H as ->. reflexivity.
  - exact (IH i x k H).
Qed.

Lemma for_jobs_invoked (js : list _Job) :
  forall (i : nat) (cum : Z) (s : state),
    (i + length js = length (_jobs (self s)))%nat ->
    let r := for_jobs js i cum s in
    exists k,
      (k <= length js)%nat /\
      invoked (final r) = invoked s ++ map id (firstn k (skipn i (_jobs (self s)))) /\
      (returns r = true -> k = length js) /\
      (returns r = false -> (1 <= k)%nat) /\
      (forall m, (i + k <= m)%nat ->
                 nth_error (_jobs (self (final r))) m = nth_error (_jobs (self s)) m).
Proof.
  induction js as [|x js IH]; intros i cum s Hlen; simpl.
  - exists 0%nat. simpl. rewrite app_nil_r. repeat split; auto. discriminate.
  - rewrite run_local_unfold.
    destruct (nth_error (_jobs (self s)) i) as [j|] eqn:Hn.
    2:{ apply nth_error_None in Hn. simpl in Hlen. lia. }
    set (s0 := mkState (self s) (logging s) (pipes s) (closed s)
                       (invoked s ++ [id j]) (callbacks s)).
    destruct (call_invoked i cum (_total_weight (self s)) (func j) s0) as (Hi & Ho).
    pose proof (call_extends i cum (_total_weight (self s)) (func j) s0) as (F & _).
    destruct (call (func j) _ s0) as [[] s1|e1 s1|b1 s1]; simpl in Hi, Ho, F.
    + destruct (seq_frame_nth s0 s1 i j F Hn) as (j' & Hn' & Hsh).
      rewrite Hn'.
      destruct (IH (S i) (cum + weight j') s1) as (k & Hk & Hinv & Hret & Hnr & Hm).
      { rewrite (seq_frame_length _ _ F). simpl in *. lia. }
      exists (S k). split; [simpl; lia|]. split; [|split; [|split]].
      * rewrite (firstn_skipn_S _ i j k Hn), Hinv, Hi.
        change (invoked s0) with (invoked s ++ [id j]).
        rewrite map_cons, <- app_assoc. cbn [app]. do 2 f_equal.
        rewrite <- !firstn_map, <- !skipn_map. do 2 f_equal.
        apply map_shape_ids. apply F.
      * intro R. simpl. f_equal. auto.
      * intros _. lia.
      * intros m Hle. rewrite Hm by lia. apply Ho. lia.
    + exists 1%nat. split; [simpl; lia|]. split; [|split; [|split]].
      * rewrite (firstn_skipn_S _ i j 0 Hn). simpl final. rewrite Hi. reflexivity.
      * simpl. discriminate.
      * auto.
      * intros m Hle. simpl final. apply Ho. lia.
    + exists 1%nat. split; [simpl; lia|]. split; [|split; [|split]].
      * rewrite (firstn_skipn_S _ i j 0 Hn). simpl final. rewrite Hi. reflexivity.
      * simpl. discriminate.
      * auto.
      * intros m Hle. simpl final. apply Ho. lia.
Qed.

(** X1.  The loop of [run_single_threaded] calls the work functions in
    registration order, each at most once: the jobs whose function has
    been called are the first [k] of the list.  When the loop returns,
    [k] is the number of jobs; when it does not, the jobs after the
    [k]-th have not been called and are left exactly as they were. *)
Theorem sequential_invocation_order :
  forall s : state,
    let r := run_single_threaded_suite s in
    exists k,
      (k <= length (_jobs (self s)))%nat /\
      invoked (final r) = invoked s ++ map id (firstn k (_jobs (self s))) /\
      (returns r = true -> k = length (_jobs (self s))) /\
      (returns r = false -> (1 <= k)%nat) /\
      (forall m, (k <= m)%nat ->
                 nth_error (_jobs (self (final r))) m = nth_error (_jobs (self s)) m).
Proof.
  intros s r. subst r. unfold run_single_threaded_suite.
  destruct (for_jobs_invoked (_jobs (self s)) 0 0 s eq_refl)
    as (k & Hk & Hinv & Hret & Hnr & Hm).
  exists k. simpl in Hinv. repeat split; auto.
Qed.

Lemma sequential_invocation_order_witness :
  exists k,
    (k <= 2)%nat /\
    invoked (final (run_single_threaded_suite (registered jobs_1_3 default_logging))) =
    [] ++ map id (firstn k jobs_1_3).
Proof.
  destruct (sequential_invocation_order (registered jobs_1_3 default_logging))
    as (k & Hk & Hi & _).
  exists k. split; [exact Hk|exact Hi].
Defined.

(** ** Sequential execution: the values reported *)

Lemma start_of_bounds (l : list _Job) :
  Forall (fun j => 0 < weight j) l ->
  forall k, 0 <= start_of l k <= sum_weights l.
Proof.
  unfold start_of, sum_weights.
  induction 1 as [|x l Hx Hl IH]; intros [|k]; simpl; try lia.
  - assert (0 <= fold_right Z.add 0 (map weight l)) by (specialize (IH 0%nat); simpl in IH; lia).
    lia.
  - specialize (IH k). lia.
Qed.

Lemma start_of_all (l : list _Job) :
  start_of l (length l) = sum_weights l.
Proof. unfold start_of. now rewrite firstn_all. Qed.

Lemma inject_Z_nonneg (z : Z) : 0 <= z -> (0 <= inject_Z z)%Q.
Proof. intro H. change 0%Q with (inject_Z 0). now rewrite <- Zle_Qle. Qed.

Lemma inject_Z_pos (z : Z) : 0 < z -> (0 < inject_Z z)%Q.
Proof. intro H. change 0%Q with (inject_Z 0). now rewrite <- Zlt_Qlt. Qed.

(** The aggregate of an invocation lies between the share of the jobs
    before [i] and the share of the jobs up to [i]. *)
Lemma overall_bounds (l : list _Job) (i : nat) (j : _Job) (p : Q) :
  Forall (fun j => 0 < weight j) l ->
  nth_error l i = Some j ->
  (0 <= p)%Q -> (p <= 1)%Q ->
  (inject_Z (start_of l i) / inject_Z (sum_weights l)
   <= overall l (sum_weights l) (i, p))%Q /\
  (overall l (sum_weights l) (i, p)
   <= inject_Z (start_of l (S i)) / inject_Z (sum_weights l))%Q /\
  (0 <= overall l (sum_weights l) (i, p))%Q /\
  (overall l (sum_weights l) (i, p) <= 1)%Q.
Proof.
  intros Hpos Hn Hp0 Hp1.
  pose proof (positive_weights_nth l i j Hpos Hn) as Hw.
  pose proof (start_of_bounds l Hpos i) as [Hs0 _].
  pose proof (start_of_bounds l Hpos (S i)) as [_ Hs1].
  pose proof (start_of_S l i j Hn) as HS.
  assert (HT : (0 < inject_Z (sum_weights l))%Q) by (apply inject_Z_pos; lia).
  unfold overall, weight_at. simpl fst. simpl snd. rewrite Hn.
  assert (Hwq : (0 < inject_Z (weight j))%Q) by now apply inject_Z_pos.
  assert (Hsq : (0 <= inject_Z (start_of l i))%Q) by now apply inject_Z_nonneg.
  assert (Hsum : (inject_Z (start_of l i) + inject_Z (weight j)
                  <= inject_Z (sum_weights l))%Q).
  { rewrite <- inject_Z_plus, <- Zle_Qle. lia. }
  assert (HS' : (inject_Z (start_of l (S i)) ==
                 inject_Z (start_of l i) + inject_Z (weight j))%Q)
    by (rewrite HS, inject_Z_plus; reflexivity).
  set (a := inject_Z (start_of l i)) in *.
  set (b := inject_Z (weight j)) in *.
  set (T := inject_Z (sum_weights l)) in *.
  assert (N0 : (a <= a + b * p)%Q) by nra.
  assert (N1 : (a + b * p <= a + b)%Q) by nra.
  repeat split.
  - apply Qle_shift_div_l; auto.
    setoid_replace (a / T * T)%Q with a by (field; lra). exact N0.
  - apply Qle_shift_div_l; auto.
    setoid_replace ((a + b * p) / T * T)%Q with (a + b * p)%Q by (field; lra).
    rewrite HS'. exact N1.
  - apply Qle_shift_div_l; auto. rewrite Qmult_0_l. lra.
  - apply Qle_shift_div_r; auto. rewrite Qmult_1_l. lra.
Qed.

Lemma call_unit_callbacks (i : nat) (start T : Z) (f : work) :
  unit_reports f ->
  forall s,
    exists ps,
      callbacks (final (call f (fun p => note_callback i p ;;
                                         _progress_local i p start T) s)) =
      callbacks s ++ map (pair i) ps /\
      Forall (fun p => (0 <= p)%Q /\ (p <= 1)%Q) ps.
Proof.
  induction f as [|e|p k IH]; intros Hu s; simpl.
  - exists []. simpl. now rewrite app_nil_r.
  - exists []. simpl. now rewrite app_nil_r.
  - destruct Hu as (Hp0 & Hp1 & Hk).
    pose proof (local_callback_final i p start T s) as (_ & _ & Hc & _).
    destruct ((note_callback i p ;; _progress_local i p start T) s)
      as [[] s1|e1 s1|b1 s1]; simpl in Hc.
    + destruct (IH None (Hk None) s1) as (ps & E & F).
      exists (p :: ps). rewrite E, Hc, <- app_assoc. split; auto.
    + destruct (IH (Some e1) (Hk (Some e1)) s1) as (ps & E & F).
      exists (p :: ps). rewrite E, Hc, <- app_assoc. split; auto.
    + exists [p]. simpl. split; auto.
Qed.

Lemma for_jobs_unit_callbacks (js : list _Job) :
  forall (i : nat) (cum : Z) (s : state),
    (i + length js = length (_jobs (self s)))%nat ->
    unit_jobs s ->
    exists cbs,
      callbacks (final (for_jobs js i cum s)) = callbacks s ++ cbs /\
      Forall (fun c => (fst c < length (_jobs (self s)))%nat /\
                       (0 <= snd c)%Q /\ (snd c <= 1)%Q) cbs.
Proof.
  induction js as [|x js IH]; intros i cum s Hlen Hu; simpl.
  - exists []. now rewrite app_nil_r.
  - rewrite run_local_unfold.
    destruct (nth_error (_jobs (self s)) i) as [j|] eqn:Hn.
    2:{ apply nth_error_None in Hn. simpl in Hlen. lia. }
    set (s0 := mkState (self s) (logging s) (pipes s) (closed s)
                       (invoked s ++ [id j]) (callbacks s)).
    assert (Huj : unit_reports (func j)).
    { unfold unit_jobs in Hu. rewrite Forall_forall in Hu. apply Hu.
      eapply nth_error_In; eauto. }
    destruct (call_unit_callbacks i cum (_total_weight (self s)) (func j) Huj s0)
      as (ps & Hc & Hps).
    pose proof (call_extends i cum (_total_weight (self s)) (func j) s0) as (F & _).
    assert (Hi : (i < length (_jobs (self s)))%nat)
      by (apply nth_error_Some; congruence).
    assert (Hfirst : Forall (fun c => (fst c < length (_jobs (self s)))%nat /\
                                      (0 <= snd c)%Q /\ (snd c <= 1)%Q)
                            (map (pair i) ps)).
    { apply Forall_map. revert Hps. apply Forall_impl. simpl. tauto. }
    destruct (call (func j) _ s0) as [[] s1|e1 s1|b1 s1]; simpl in Hc, F.
    + destruct (seq_frame_nth s0 s1 i j F Hn) as (j' & Hn' & Hsh).
      rewrite Hn'.
      destruct (IH (S i) (cum + weight j') s1) as (cbs & Hc' & Hcbs).
      { rewrite (seq_frame_length _ _ F). simpl in *. lia. }
      { exact (seq_frame_unit_jobs s0 s1 F Hu). }
      exists (map (pair i) ps ++ cbs). rewrite Hc', Hc, <- app_assoc.
      split; [reflexivity|]. apply Forall_app. split; auto.
      rewrite (seq_frame_length _ _ F) in Hcbs. exact Hcbs.
    + exists (map (pair i) ps). auto.
    + exists (map (pair i) ps). auto.
Qed.

(** X2.  With positive weights whose sum is [_total_weight] and does not
    exceed 2^53 (every weight and every sum of weights is then a float),
    and work functions that report local progress in [[0, 1]] only, every
    value that the loop of [run_single_threaded] hands to [log_progress]
    lies in [[0, 1]]: the branch of [log_progress] for a progress above 1
    is never taken. *)
Theorem sequential_reports_in_unit_interval :
  forall s : state,
    positive_weights s ->
    weights_consistent s ->
    _total_weight (self s) <= 2 ^ 53 ->
    unit_jobs s ->
    exists new,
      reported (logging (final (run_single_threaded_suite s))) =
      reported (logging s) ++ new /\
      Forall (fun q => (0 <= q)%Q /\ (q <= 1)%Q) new.
Proof.
  intros s Hpos Hcons _ Hu. unfold run_single_threaded_suite.
  destruct (for_jobs_spec (_jobs (self s)) 0 0 s eq_refl eq_refl)
    as (_ & cbs & Hc & Hr & _).
  { intro Hne. rewrite Hcons. pose proof (sum_weights_pos _ Hpos Hne). lia. }
  destruct (for_jobs_unit_callbacks (_jobs (self s)) 0 0 s eq_refl Hu)
    as (cbs' & Hc' & Hcbs).
  rewrite Hc in Hc'. apply app_inv_head in Hc'. subst cbs'.
  exists (map (overall (_jobs (self s)) (_total_weight (self s))) cbs).
  split; [exact Hr|]. apply Forall_map. revert Hcbs. apply Forall_impl.
  intros [i p] (Hi & Hp0 & Hp1). simpl in Hi, Hp0, Hp1.
  destruct (nth_error (_jobs (self s)) i) as [j|] eqn:Hn;
    [|apply nth_error_None in Hn; lia].
  rewrite Hcons.
  destruct (overall_bounds (_jobs (self s)) i j p Hpos Hn Hp0 Hp1) as (_ & _ & A & B).
  auto.
Qed.

Lemma sequential_reports_in_unit_interval_witness :
  let s := registered jobs_1_3_both default_logging in
  exists new,
    reported (logging (final (run_single_threaded_suite s))) =
    reported (logging s) ++ new /\
    Forall (fun q => (0 <= q)%Q /\ (q <= 1)%Q) new.
Proof.
  intro s. apply (sequential_reports_in_unit_interval s).
  - repeat constructor.
  - reflexivity.
  - discriminate.
  - repeat constructor; try discriminate; intros []; simpl; auto.
Defined.

Lemma overall_last (l : list _Job) (m : nat) (p : Q) :
  Forall (fun j => 0 < weight j) l ->
  length l = S m ->
  (p == 1)%Q ->
  (overall l (sum_weights l) (m, p) == 1)%Q.
Proof.
  intros Hpos Hlen Hp.
  destruct (nth_error l m) as [j|] eqn:Hn;
    [|apply nth_error_None in Hn; lia].
  pose proof (start_of_S l m j Hn) as HS.
  rewrite <- Hlen, start_of_all in HS.
  pose proof (positive_weights_nth l m j Hpos Hn) as Hw.
  pose proof (start_of_bounds l Hpos m) as [Hs0 _].
  unfold overall, weight_at. simpl fst. simpl snd. rewrite Hn, Hp, Qmult_1_r.
  rewrite <- inject_Z_plus, <- HS.
  apply Qmult_inv_r. intro E.
  assert (HT : (0 < inject_Z (sum_weights l))%Q) by (apply inject_Z_pos; lia).
  rewrite E in HT. discriminate HT.
Qed.

(** X3.  With positive weights whose sum is [_total_weight] and does not
    exceed 2^53, a sequential run whose last callback invocation is the
    last job reporting local progress 1.0 ends with the aggregate 1 handed
    to [log_progress]. *)
Theorem sequential_last_job_complete :
  forall (s : state) (m : nat) (p : Q) (before : list (nat * Q)),
    positive_weights s ->
    weights_consistent s ->
    _total_weight (self s) <= 2 ^ 53 ->
    length (_jobs (self s)) = S m ->
    (p == 1)%Q ->
    callbacks (final (run_single_threaded_suite s)) =
    callbacks s ++ before ++ [(m, p)] ->
    exists q,
      last_reported (final (run_single_threaded_suite s)) = Some q /\ (q == 1)%Q.
Proof.
  intros s m p before Hpos Hcons _ Hlen Hp Hcb.
  unfold run_single_threaded_suite in *.
  destruct (for_jobs_spec (_jobs (self s)) 0 0 s eq_refl eq_refl)
    as (_ & cbs & Hc & Hr & _).
  { intro Hne. rewrite Hcons. pose proof (sum_weights_pos _ Hpos Hne). lia. }
  rewrite Hc in Hcb. apply app_inv_head in Hcb. subst cbs.
  exists (overall (_jobs (self s)) (_total_weight (self s)) (m, p)). split.
  - unfold last_reported. rewrite Hr, map_app. simpl.
    now rewrite app_assoc, rev_app_distr.
  - rewrite Hcons. now apply overall_last.
Qed.

Lemma sequential_last_job_complete_witness :
  let s := registered jobs_1_3_both default_logging in
  exists q,
    last_reported (final (run_single_threaded_suite s)) = Some q /\ (q == 1)%Q.
Proof.
  intro s.
  apply (sequential_last_job_complete s 1%nat 1%Q [(0%nat, 1%Q)]).
  - repeat constructor.
  - reflexivity.
  - discriminate.
  - reflexivity.
  - reflexivity.
  - reflexivity.
Defined.

(** ** Sequential execution: a progress of zero *)

(** A progress of zero is recorded and then divided by, whatever the
    clock shows. *)
Lemma log_progress_zero (q : Q) (s : state) :
  (q == 0)%Q ->
  log_progress q s =
  Raised ZeroDivisionError
         (logged q (Some ZeroDivisionError) (S (ticks (logging s))) s).
Proof.
  intro Hq. unfold log_progress.
  assert (E1 : Qle_bool q 1 = true) by (apply Qle_bool_iff; rewrite Hq; discriminate).
  assert (E2 : Qeq_bool q 0 = true) by now apply Qeq_bool_iff.
  rewrite E1. simpl. unfold remaining_time, timedelta_truediv. now rewrite E2.
Qed.

(** One invocation of the callback of [run_local] whose aggregate is
    zero. *)
Lemma local_callback_zero (i : nat) (p : Q) (start T : Z) (s : state) (j : _Job) :
  nth_error (_jobs (self s)) i = Some j ->
  T <> 0 ->
  ((inject_Z start + inject_Z (weight j) * p) / inject_Z T == 0)%Q ->
  (note_callback i p ;; _progress_local i p start T) s =
  Raised ZeroDivisionError
         (logged ((inject_Z start + inject_Z (weight j) * p) / inject_Z T)%Q
                 (Some ZeroDivisionError) (S (ticks (logging s))) (stored i p s)).
Proof.
  intros Hn HT Hv.
  rewrite local_callback_unfold, Hn.
  apply Z.eqb_neq in HT. rewrite HT.
  apply (log_progress_zero _ (stored i p s) Hv).
Qed.

(** X4.  If the first job reports local progress 0.0 and does not handle
    what the callback raises, the sequential run ends there with the
    [ZeroDivisionError] of [log_progress]: the value 0 has been handed to
    [log_progress], and no other work function is called. *)
Theorem sequential_zero_progress_raises :
  forall (s : state) (j : _Job) (rest : list _Job) (p : Q) (k : work),
    _jobs (self s) = j :: rest ->
    _total_weight (self s) <> 0 ->
    func j = Report p (propagate k) ->
    (p == 0)%Q ->
    let r := run_single_threaded_suite s in
    kind_of r = KRaised ZeroDivisionError /\
    invoked (final r) = invoked s ++ [id j] /\
    exists q, reported (logging (final r)) = reported (logging s) ++ [q] /\ (q == 0)%Q.
Proof.
  intros s j rest p k Hj HT Hf Hp r. subst r.
  assert (Hn : nth_error (_jobs (self s)) 0 = Some j) by now rewrite Hj.
  assert (Hv : ((inject_Z 0 + inject_Z (weight j) * p)
                / inject_Z (_total_weight (self s)) == 0)%Q).
  { rewrite Hp. unfold Qdiv. rewrite Qmult_0_r, Qplus_0_l. apply Qmult_0_l. }
  unfold run_single_threaded_suite. rewrite Hj. simpl for_jobs.
  rewrite run_local_unfold, Hn, Hf.
  set (s0 := mkState (self s) (logging s) (pipes s) (closed s)
                     (invoked s ++ [id j]) (callbacks s)).
  pose proof (local_callback_zero 0 p 0 (_total_weight (self s)) s0 j Hn HT Hv) as E.
  simpl call. rewrite E. simpl.
  repeat split. eexists. split; [reflexivity|exact Hv].
Qed.

Lemma sequential_zero_progress_raises_witness :
  let s := registered [ _Job__init__ 0 2 (Report 0 (propagate Done)) 0%nat 1%nat;
                        _Job__init__ 1 3 Done 2%nat 3%nat ] default_logging in
  kind_of (run_single_threaded_suite s) = KRaised ZeroDivisionError /\
  invoked (final (run_single_threaded_suite s)) = invoked s ++ [0].
Proof.
  intro s.
  destruct (sequential_zero_progress_raises s
              (_Job__init__ 0 2 (Report 0 (propagate Done)) 0%nat 1%nat)
              [_Job__init__ 1 3 Done 2%nat 3%nat] 0%Q Done
              eq_refl) as (A & B & _).
  - discriminate.
  - reflexivity.
  - reflexivity.
  - split; [exact A|exact B].
Defined.

(** ** Progress messages in parallel mode *)

Lemma py_index_nonneg (n : nat) (i : nat) :
  (i < n)%nat -> py_index n (Z.of_nat i) = Some i.
Proof.
  intro H. unfold py_index.
  assert (E : (0 <=? Z.of_nat i) && (Z.of_nat i <? Z.of_nat n) = true).
  { apply andb_true_intro. split; [apply Z.leb_le|apply Z.ltb_lt]; lia. }
  rewrite E. now rewrite Nat2Z.id.
Qed.

Lemma py_index_negative (n : nat) (k : nat) :
  (1 <= k <= n)%nat -> py_index n (- Z.of_nat k) = Some (n - k)%nat.
Proof.
  intro H. unfold py_index.
  assert (E1 : (0 <=? - Z.of_nat k) && (- Z.of_nat k <? Z.of_nat n) = false).
  { apply andb_false_intro1. apply Z.leb_gt. lia. }
  assert (E2 : (- Z.of_nat n <=? - Z.of_nat k) && (- Z.of_nat k <? 0) = true).
  { apply andb_true_intro. split; [apply Z.leb_le|apply Z.ltb_lt]; lia. }
  rewrite E1, E2. f_equal. lia.
Qed.

Lemma py_index_out_of_range (n : nat) (z : Z) :
  Z.of_nat n <= z \/ z < - Z.of_nat n -> py_index n z = None.
Proof.
  intro H. unfold py_index.
  assert (E1 : (0 <=? z) && (z <? Z.of_nat n) = false).
  { destruct H; [apply andb_false_intro2; apply Z.ltb_ge|
                 apply andb_false_intro1; apply Z.leb_gt]; lia. }
  assert (E2 : (- Z.of_nat n <=? z) && (z <? 0) = false).
  { destruct H; [apply andb_false_intro2; apply Z.ltb_ge|
                 apply andb_false_intro1; apply Z.leb_gt]; lia. }
  now rewrite E1, E2.
Qed.

(** X5.  A job id in a progress message is used as a Python list index:
    an id [-k] with [1 <= k <= len(jobs)] is not rejected, it addresses the
    [k]-th job from the end, so that the message has the effect of the
    same message with id [len(jobs) - k]. *)
Theorem progress_reporter_negative_id :
  forall (s : state) (p : Q) (k : nat),
    (1 <= k <= length (_jobs (self s)))%nat ->
    _progress_reporter p (- Z.of_nat k) s =
    _progress_reporter p (Z.of_nat (length (_jobs (self s)) - k)) s.
Proof.
  intros s p k H. unfold _progress_reporter.
  rewrite (py_index_negative _ _ H), py_index_nonneg by lia. reflexivity.
Qed.

Lemma progress_reporter_negative_id_witness :
  _progress_reporter 1 (- Z.of_nat 1) (registered jobs_1_3 default_logging) =
  _progress_reporter 1 (Z.of_nat (2 - 1)) (registered jobs_1_3 default_logging).
Proof.
  apply (progress_reporter_negative_id (registered jobs_1_3 default_logging) 1 1).
  simpl. lia.
Defined.

(** X6.  A progress message whose job id is outside
    [-len(jobs) .. len(jobs) - 1] makes [_progress_reporter] raise
    [IndexError] with nothing changed and nothing reported; [_wait] does
    not handle it: after any stretch of polls without a message that left
    an endpoint active, the error leaves [_wait] before any [join]. *)
Theorem wait_out_of_range_id :
  forall (s : state) (rs : list conn) (pre post : list observation) (p : Q) (pid : Z),
    _readers (self s) = Some rs ->
    forallb quiet pre = true ->
    (closures pre < length rs)%nat ->
    Z.of_nat (length (_jobs (self s))) <= pid \/
    pid < - Z.of_nat (length (_jobs (self s))) ->
    _progress_reporter p pid s = Raised IndexError s /\
    exists s',
      _wait (pre ++ Data (Pair p pid) :: post) s = Raised IndexError s' /\
      same_but_readers s s'.
Proof.
  intros s rs pre post p pid Hr Hq Hl Hout.
  assert (Hrep : forall t, _jobs (self t) = _jobs (self s) ->
                           _progress_reporter p pid t = Raised IndexError t).
  { intros t Ht. unfold _progress_reporter. rewrite Ht.
    now rewrite (py_index_out_of_range _ _ Hout). }
  split; [apply Hrep; reflexivity|].
  destruct (wait_loop_quiet pre 0 s rs (Data (Pair p pid) :: post) Hr Hq) as [H _].
  destruct (H Hl) as (i' & s' & rs' & S' & R' & L' & E).
  exists s'. split; [|exact S'].
  rewrite wait_unfold, E. simpl. rewrite R'.
  destruct rs' as [|r' rs']; [simpl in L'; lia|].
  rewrite (Hrep s'); [reflexivity|apply S'].
Qed.

Lemma wait_out_of_range_id_witness :
  exists s',
    _wait ([NoData] ++ Data (Pair 1 5) :: []) polling = Raised IndexError s' /\
    same_but_readers polling s'.
Proof.
  apply (wait_out_of_range_id polling [0%nat] [NoData] [] 1 5 eq_refl eq_refl).
  - simpl. lia.
  - left. simpl. lia.
Defined.

(** ** The aggregate in parallel mode *)

Lemma fold_left_Qplus_acc (l : list Q) :
  forall a, (fold_left Qplus l a == a + fold_left Qplus l 0)%Q.
Proof.
  induction l as [|x l IH]; intro a; simpl.
  - now rewrite Qplus_0_r.
  - rewrite (IH (a + x)%Q), (IH (0 + x)%Q). ring.
Qed.

Lemma sum_progress_cons (j : _Job) (l : list _Job) :
  (sum_progress (j :: l) == progress j + sum_progress l)%Q.
Proof.
  unfold sum_progress. simpl. rewrite fold_left_Qplus_acc. ring.
Qed.

Lemma sum_progress_zero (l : list _Job) :
  Forall (fun j => (progress j == 0)%Q) l -> (sum_progress l == 0)%Q.
Proof.
  induction 1 as [|j l Hj Hl IH].
  - reflexivity.
  - rewrite sum_progress_cons, Hj, IH. reflexivity.
Qed.

Lemma progress_reporter_zero (p : Q) (pid : Z) (i : nat) (s : state) :
  py_index (length (_jobs (self s))) pid = Some i ->
  _total_weight (self s) <> 0 ->
  Forall (fun j => (progress j == 0)%Q) (_jobs (self s)) ->
  (p == 0)%Q ->
  exists s' q,
    _progress_reporter p pid s = Raised ZeroDivisionError s' /\
    reported (logging s') = reported (logging s) ++ [q] /\ (q == 0)%Q /\
    _readers (self s') = _readers (self s).
Proof.
  intros Hi HT Hz Hp. unfold _progress_reporter. rewrite Hi.
  destruct (nth_error (_jobs (self s)) i) as [j|] eqn:Hn.
  2:{ apply py_index_lt in Hi. apply nth_error_None in Hn. lia. }
  unfold bind at 1, truediv. rewrite (Qeq_bool_inject_Z_0 _ HT). unfold ret.
  unfold bind, modify. cbv beta iota.
  match goal with |- context [log_progress ?q ?s0] =>
    assert (Hq : (q == 0)%Q); [|rewrite (log_progress_zero q s0 Hq)]
  end.
  - simpl. apply sum_progress_zero. apply Forall_update; auto.
    intros x _ _. simpl. rewrite Hp. ring.
  - do 2 eexists. split; [reflexivity|]. simpl. split; [reflexivity|].
    split; [exact Hq|reflexivity].
Qed.

(** X9.  While no job holds any progress, a message with progress 0.0
    makes the aggregate 0: [log_progress] records it and raises
    [ZeroDivisionError], which [_wait] does not handle.  After any stretch
    of polls without a message that left an endpoint active, the error
    leaves [_wait] before any [join]. *)
Theorem wait_zero_progress_raises :
  forall (s : state) (rs : list conn) (pre post : list observation)
         (p : Q) (pid : Z) (i : nat),
    _readers (self s) = Some rs ->
    forallb quiet pre = true ->
    (closures pre < length rs)%nat ->
    py_index (length (_jobs (self s))) pid = Some i ->
    _total_weight (self s) <> 0 ->
    Forall (fun j => (progress j == 0)%Q) (_jobs (self s)) ->
    (p == 0)%Q ->
    exists s' q,
      _wait (pre ++ Data (Pair p pid) :: post) s = Raised ZeroDivisionError s' /\
      reported (logging s') = reported (logging s) ++ [q] /\ (q == 0)%Q.
Proof.
  intros s rs pre post p pid i Hr Hq Hl Hi HT Hz Hp.
  destruct (wait_loop_quiet pre 0 s rs (Data (Pair p pid) :: post) Hr Hq) as [H _].
  destruct (H Hl) as (i' & s1 & rs1 & (J & T & _ & L & _) & R1 & L1 & E).
  destruct (progress_reporter_zero p pid i s1) as (s' & q & E' & Rep & Hq0 & _);
    try rewrite J; try rewrite T; auto.
  exists s', q. split; [|split; [congruence|exact Hq0]].
  rewrite wait_unfold, E. simpl. rewrite R1.
  destruct rs1 as [|r1 rs1]; [simpl in L1; lia|].
  now rewrite E'.
Qed.

Lemma wait_zero_progress_raises_witness :
  exists s' q,
    _wait ([NoData] ++ Data (Pair 0 0) :: [EndOfFile false]) polling =
    Raised ZeroDivisionError s' /\
    reported (logging s') = reported (logging polling) ++ [q] /\ (q == 0)%Q.
Proof.
  apply (wait_zero_progress_raises polling [0%nat] [NoData] [EndOfFile false] 0 0 0%nat
           eq_refl eq_refl).
  - simpl. lia.
  - reflexivity.
  - discriminate.
  - repeat constructor.
  - reflexivity.
Defined.

(** ** Starting, waiting for and joining the workers *)

Lemma same_but_jobs_refl (s : state) : same_but_jobs s s.
Proof. unfold same_but_jobs. repeat split; reflexivity. Qed.

Lemma same_but_jobs_trans (s1 s2 s3 : state) :
  same_but_jobs s1 s2 -> same_but_jobs s2 s3 -> same_but_jobs s1 s3.
Proof.
  unfold same_but_jobs.
  intros (A1 & A2 & A3 & A4 & A5 & A6 & A7 & A8 & A9)
         (B1 & B2 & B3 & B4 & B5 & B6 & B7 & B8 & B9).
  repeat split; congruence.
Qed.

Lemma firstn_S_update {A : Type} (f : A -> A) (l : list A) :
  forall i x, nth_error l i = Some x ->
              firstn (S i) (update i f l) = firstn i l ++ [f x].
Proof.
  induction l as [|y l IH]; intros [|i] x H; simpl in *; try discriminate.
  - injection H as ->. reflexivity.
  - f_equal. exact (IH i x H).
Qed.

Lemma skipn_S_update {A : Type} (f : A -> A) (l : list A) :
  forall i, skipn (S i) (update i f l) = skipn (S i) l.
Proof.
  induction l as [|y l IH]; intros [|i]; simpl; auto.
  exact (IH i).
Qed.

Lemma skipn_nth_cons {A : Type} (l : list A) :
  forall i x, nth_error l i = Some x -> skipn i l = x :: skipn (S i) l.
Proof.
  induction l as [|y l IH]; intros [|i] x H; simpl in *; try discriminate.
  - injection H as ->. reflexivity.
  - exact (IH i x H).
Qed.

(** A loop over the positions of the job list whose body updates the job
    at its position, as long as the job passes the test of the body. *)
Lemma for_each_updates (body : nat -> M unit) (f : _Job -> _Job) (ok : _Job -> Prop) :
  (forall i s j,
      nth_error (_jobs (self s)) i = Some j -> ok j ->
      exists s',
        body i s = Returned tt s' /\
        _jobs (self s') = update i f (_jobs (self s)) /\
        same_but_jobs s s') ->
  forall (n i : nat) (s : state),
    (i + n = length (_jobs (self s)))%nat ->
    (forall m j, (i <= m)%nat -> nth_error (_jobs (self s)) m = Some j -> ok j) ->
    exists s',
      for_each n i body s = Returned tt s' /\
      _jobs (self s') = firstn i (_jobs (self s)) ++ map f (skipn i (_jobs (self s))) /\
      same_but_jobs s s'.
Proof.
  intros Hbody. induction n as [|n IH]; intros i s Hlen Hok.
  - exists s. split; [reflexivity|]. split; [|apply same_but_jobs_refl].
    rewrite skipn_all2, firstn_all2 by lia. simpl. now rewrite app_nil_r.
  - destruct (nth_error (_jobs (self s)) i) as [j|] eqn:Hn;
      [|apply nth_error_None in Hn; lia].
    destruct (Hbody i s j Hn (Hok i j (le_n i) Hn)) as (s1 & E1 & J1 & S1).
    destruct (IH (S i) s1) as (s2 & E2 & J2 & S2).
    + rewrite J1, length_update. lia.
    + intros m x Hm Hx. rewrite J1, nth_error_update_other in Hx by lia.
      apply (Hok m x); [lia|exact Hx].
    + exists s2. split; [|split].
      * simpl. unfold bind. rewrite E1. exact E2.
      * rewrite J2, J1, (firstn_S_update f _ i j Hn), skipn_S_update,
          (skipn_nth_cons _ i j Hn), <- app_assoc. reflexivity.
      * eapply same_but_jobs_trans; eauto.
Qed.

Lemma same_but_jobs_set (js : list _Job) (s : state) :
  same_but_jobs s (set_jobs js s).
Proof. unfold same_but_jobs. simpl. repeat split; reflexivity. Qed.

Lemma start_step (i : nat) (s : state) (j : _Job) :
  nth_error (_jobs (self s)) i = Some j ->
  proc j = Initial ->
  exists s',
    start i s = Returned tt s' /\
    _jobs (self s') = update i (set_proc Started) (_jobs (self s)) /\
    same_but_jobs s s'.
Proof.
  intros Hn Hp. unfold start. rewrite Hn, Hp.
  eexists. split; [reflexivity|]. split; [reflexivity|apply same_but_jobs_set].
Qed.

Lemma join_step (i : nat) (s : state) (j : _Job) :
  nth_error (_jobs (self s)) i = Some j ->
  proc j = Finished ->
  exists s',
    join i s = Returned tt s' /\
    _jobs (self s') = update i (set_proc Joined) (_jobs (self s)) /\
    same_but_jobs s s'.
Proof.
  intros Hn Hp. unfold join. rewrite Hn, Hp.
  eexists. split; [reflexivity|]. split; [reflexivity|apply same_but_jobs_set].
Qed.

Lemma absorb_exits_jobs (obs : list observation) :
  forall s,
    _jobs (self (absorb_exits obs s)) = exit_all obs (_jobs (self s)) /\
    same_but_jobs s (absorb_exits obs s).
Proof.
  induction obs as [|o obs IH]; intro s; simpl.
  - split; [reflexivity|apply same_but_jobs_refl].
  - destruct o; try apply IH.
    destruct (IH (mark_exited k s)) as (J & S). split; [exact J|].
    eapply same_but_jobs_trans; [|exact S]. apply same_but_jobs_set.
Qed.

Lemma length_exit_all (obs : list observation) :
  forall js, length (exit_all obs js) = length js.
Proof.
  induction obs as [|o obs IH]; intro js; simpl; auto.
  destruct o; auto. now rewrite IH, length_update.
Qed.

Lemma exit_all_missing (obs : list observation) (k : nat) :
  ~ In (Exited k) obs ->
  forall js, nth_error (exit_all obs js) k = nth_error js k.
Proof.
  induction obs as [|o obs IH]; intros H js; simpl; auto.
  assert (H' : ~ In (Exited k) obs) by (intro; apply H; now right).
  destruct o as [| | | |k']; auto.
  rewrite (IH H'). apply nth_error_update_other.
  intros ->. apply H. now left.
Qed.

Lemma exit_all_settled (obs : list observation) (k : nat) :
  forall js j,
    nth_error js k = Some j -> proc j <> Started ->
    nth_error (exit_all obs js) k = Some j.
Proof.
  induction obs as [|o obs IH]; intros js j Hn Hp; simpl; auto.
  destruct o as [| | | |k']; auto.
  apply IH; auto. destruct (Nat.eq_dec k' k) as [->|Hne].
  - rewrite nth_error_update, Hn. simpl. unfold exited.
    destruct (proc j); congruence.
  - rewrite nth_error_update_other; auto.
Qed.

Lemma exit_all_exited (obs : list observation) (k : nat) :
  In (Exited k) obs ->
  forall js j,
    nth_error js k = Some j -> proc j = Started ->
    nth_error (exit_all obs js) k = Some (set_proc Finished j).
Proof.
  induction obs as [|o obs IH]; intros H js j Hn Hp; [contradiction|].
  simpl. destruct H as [->|H].
  - apply exit_all_settled; [|simpl; discriminate].
    rewrite nth_error_update, Hn. simpl. unfold exited. now rewrite Hp.
  - destruct o as [| | | |k']; auto.
    destruct (Nat.eq_dec k' k) as [->|Hne].
    + apply exit_all_settled; [|simpl; discriminate].
      rewrite nth_error_update, Hn. simpl. unfold exited. now rewrite Hp.
    + apply IH; auto. rewrite nth_error_update_other; auto.
Qed.

(** The wait loop over polls that find nothing, ends of files and exits
    of workers, when there are at least as many ends of file as
    endpoints: the loop is left, and the exits that it has not seen are
    among the observations it hands back. *)
Lemma wait_loop_calm (pre : list observation) :
  forall (i : nat) (s : state) (rs : list conn),
    _readers (self s) = Some rs ->
    forallb calm pre = true ->
    (length rs <= closures pre)%nat ->
    exists s' rest,
      wait_loop pre i s = Returned rest s' /\
      _readers (self s') = Some [] /\
      logging s' = logging s /\
      exit_all rest (_jobs (self s')) = exit_all pre (_jobs (self s)).
Proof.
  induction pre as [|o pre IH]; intros i s rs Hr Hc Hl.
  - assert (rs = []) by (destruct rs; simpl in *; [auto|lia]). subst rs.
    exists s, []. simpl. rewrite Hr. auto.
  - simpl in Hc. apply andb_prop in Hc as [Ho Hc].
    destruct rs as [|r rs0].
    + exists s, (o :: pre). rewrite (wait_loop_empty _ _ _ Hr). auto.
    + destruct o as [|m|abrupt|e|k]; try discriminate Ho.
      * cbn [wait_loop]. rewrite Hr.
        destruct (IH (S (if (i <? length (r :: rs0))%nat then i else 0%nat))
                     s (r :: rs0) Hr Hc Hl) as (s' & rest & E & R & L & J).
        exists s', rest. auto.
      * rewrite (wait_loop_eof abrupt pre i s (r :: rs0) Hr) by discriminate.
        assert (Hlen : length (remove_first (polled (r :: rs0) i) (r :: rs0)) = length rs0)
          by (rewrite remove_first_length; [reflexivity|apply polled_in; discriminate]).
        destruct (IH (S (if (i <? length (r :: rs0))%nat then i else 0%nat))
                     (set_readers (remove_first (polled (r :: rs0) i) (r :: rs0)) s)
                     (remove_first (polled (r :: rs0) i) (r :: rs0)) eq_refl Hc)
          as (s' & rest & E & R & L & J).
        { rewrite Hlen. simpl in Hl. lia. }
        exists s', rest. auto.
      * cbn [wait_loop]. rewrite Hr.
        destruct (IH i (mark_exited k s) (r :: rs0) Hr Hc Hl)
          as (s' & rest & E & R & L & J).
        exists s', rest. auto.
Qed.

(** The joins stop at a worker that has not exited. *)
Lemma join_all_blocks (n : nat) :
  forall (i : nat) (s : state) (k : nat) (j : _Job),
    (i <= k < i + n)%nat ->
    nth_error (_jobs (self s)) k = Some j ->
    proc j = Started ->
    returns (for_each n i join s) = false.
Proof.
  induction n as [|n IH]; intros i s k j Hk Hn Hp; [lia|].
  simpl. unfold bind. destruct (Nat.eq_dec i k) as [->|Hne].
  - unfold join. rewrite Hn, Hp. reflexivity.
  - unfold join at 1.
    destruct (nth_error (_jobs (self s)) i) as [j0|]; [|reflexivity].
    destruct (proc j0); try reflexivity;
      (apply (IH (S i) _ k j); [lia| |exact Hp];
       simpl; rewrite nth_error_update_other; auto).
Qed.

(** X10.  On an object that has a [_readers] list, with no job started
    yet, the observations being polls that find nothing, ends of files
    and exits of workers, with at least as many ends of file as there are
    endpoints.  If the exit of every worker is among the observations,
    the suite of [run_parallel] returns, the set of active endpoints is
    empty, every job has been started and joined and is otherwise as it
    was, and nothing has been reported; the suite cannot be run again:
    with at least one job, a second run raises [AssertionError] at the
    first [start].  If the exit of some worker is not among the
    observations, the suite does not return: it stays in a [join]. *)
Theorem parallel_suite_starts_waits_and_joins :
  forall (s : state) (rs : list conn) (obs : list observation),
    _readers (self s) = Some rs ->
    Forall (fun j => proc j = Initial) (_jobs (self s)) ->
    forallb calm obs = true ->
    (length rs <= closures obs)%nat ->
    ((forall k, (k < length (_jobs (self s)))%nat -> In (Exited k) obs) ->
     exists s',
       run_parallel_suite obs s = Returned tt s' /\
       _jobs (self s') = map (set_proc Joined) (_jobs (self s)) /\
       _readers (self s') = Some [] /\
       logging s' = logging s /\
       (_jobs (self s) <> [] ->
        forall obs', run_parallel_suite obs' s' = Raised AssertionError s')) /\
    (forall k, (k < length (_jobs (self s)))%nat -> ~ In (Exited k) obs ->
               returns (run_parallel_suite obs s) = false).
Proof.
  intros s rs obs Hr Hinit Hq Hl.
  destruct (for_each_updates start (set_proc Started) (fun j => proc j = Initial)
                             start_step (length (_jobs (self s))) 0 s eq_refl)
    as (s1 & E1 & J1 & S1).
  { intros m j _ Hn. rewrite Forall_forall in Hinit. apply Hinit.
    eapply nth_error_In; eauto. }
  simpl in J1.
  assert (Hr1 : _readers (self s1) = Some rs) by (rewrite <- Hr; apply S1).
  destruct (wait_loop_calm obs 0 s1 rs Hr1 Hq Hl) as (s2 & rest & E2 & R2 & L2 & J2).
  destruct (absorb_exits_jobs rest s2) as (J3 & S3).
  set (s3 := absorb_exits rest s2) in *.
  rewrite J2, J1 in J3.
  assert (Hsuite : run_parallel_suite obs s =
                   for_each (length (_jobs (self s3))) 0 join s3).
  { unfold run_parallel_suite, bind. rewrite E1, wait_unfold, E2. reflexivity. }
  split.
  - intro Hex.
    assert (HJ3 : _jobs (self s3) = map (set_proc Finished) (_jobs (self s))).
    { apply nth_error_ext. intro m. rewrite J3, nth_error_map.
      destruct (nth_error (_jobs (self s)) m) as [j|] eqn:Hn; simpl.
      - assert (Hm : (m < length (_jobs (self s)))%nat)
          by (apply nth_error_Some; congruence).
        rewrite (exit_all_exited obs m (Hex m Hm) _ (set_proc Started j));
          [reflexivity| |reflexivity].
        rewrite nth_error_map, Hn. reflexivity.
      - apply nth_error_None. rewrite length_exit_all, length_map.
        now apply nth_error_None. }
    destruct (for_each_updates join (set_proc Joined) (fun j => proc j = Finished)
                               join_step (length (_jobs (self s3))) 0 s3 eq_refl)
      as (s4 & E4 & J4 & S4).
    { intros m j _ Hn. rewrite HJ3, nth_error_map in Hn.
      destruct (nth_error (_jobs (self s)) m); simpl in Hn; [|discriminate].
      injection Hn as <-. reflexivity. }
    simpl in J4.
    assert (HJ : _jobs (self s4) = map (set_proc Joined) (_jobs (self s))).
    { rewrite J4, HJ3, map_map. reflexivity. }
    exists s4. split; [|split; [exact HJ|split; [|split]]].
    + rewrite Hsuite. exact E4.
    + destruct S4 as (_ & _ & _ & R4 & _), S3 as (_ & _ & _ & R3 & _). congruence.
    + destruct S1 as (_ & _ & _ & _ & L1 & _), S3 as (_ & _ & _ & _ & L3 & _),
               S4 as (_ & _ & _ & _ & L4 & _). congruence.
    + intros Hne obs'. unfold run_parallel_suite, bind. rewrite HJ.
      destruct (_jobs (self s)) as [|j l] eqn:Hjobs; [congruence|].
      simpl. unfold bind, start. rewrite HJ. simpl. reflexivity.
  - intros k Hk Hno. rewrite Hsuite.
    destruct (nth_error (_jobs (self s)) k) as [j|] eqn:Hn;
      [|apply nth_error_None in Hn; lia].
    apply (join_all_blocks _ 0 s3 k (set_proc Started j)).
    + rewrite J3, length_exit_all, length_map. lia.
    + rewrite J3, (exit_all_missing obs k Hno), nth_error_map, Hn. reflexivity.
    + reflexivity.
Qed.

Lemma parallel_suite_starts_waits_and_joins_witness :
  (exists s',
      run_parallel_suite [NoData; EndOfFile false; Exited 0] polling = Returned tt s' /\
      _jobs (self s') = map (set_proc Joined) (_jobs (self polling)) /\
      _readers (self s') = Some [] /\
      logging s' = logging polling /\
      (_jobs (self polling) <> [] ->
       forall obs', run_parallel_suite obs' s' = Raised AssertionError s')) /\
  returns (run_parallel_suite [NoData; EndOfFile false] polling) = false.
Proof.
  split.
  - apply (parallel_suite_starts_waits_and_joins polling [0%nat]
             [NoData; EndOfFile false; Exited 0%nat] eq_refl).
    + repeat constructor.
    + reflexivity.
    + simpl. lia.
    + intros k Hk. simpl in Hk. assert (k = 0%nat) by lia. subst k.
      simpl. auto.
  - apply (parallel_suite_starts_waits_and_joins polling [0%nat]
             [NoData; EndOfFile false] eq_refl) with (k := 0%nat).
    + repeat constructor.
    + reflexivity.
    + simpl. lia.
    + simpl. lia.
    + simpl. intros [H|[H|H]]; try discriminate; contradiction.
Defined.

(** ** The set of active endpoints *)

Lemma remove_first_incl (x : conn) (l : list conn) : incl (remove_first x l) l.
Proof.
  induction l as [|y l IH]; simpl; [apply incl_refl|].
  destruct (Nat.eqb x y).
  - apply incl_tl, incl_refl.
  - apply incl_cons; [now left|]. apply incl_tl, IH.
Qed.

Lemma remove_first_app (a : conn) (pre tl : list conn) :
  ~ In a pre -> remove_first a (pre ++ a :: tl) = pre ++ tl.
Proof.
  induction pre as [|y pre IH]; simpl; intro H.
  - now rewrite Nat.eqb_refl.
  - destruct (Nat.eqb a y) eqn:E.
    + apply Nat.eqb_eq in E. subst. tauto.
    + f_equal. apply IH. tauto.
Qed.

(** One end of file observed while the iterator is inside the list. *)
Lemma wait_loop_eof_step (abrupt : bool) (obs : list observation) (i : nat)
      (s : state) (rs : list conn) (d : conn) :
  _readers (self s) = Some rs ->
  (i < length rs)%nat ->
  wait_loop (EndOfFile abrupt :: obs) i s =
  wait_loop obs (S i) (set_readers (remove_first (nth i rs d) rs) s).
Proof.
  intros Hr Hi.
  destruct rs as [|r rs]; [simpl in Hi; lia|].
  cbn [wait_loop]. rewrite Hr. cbv beta iota zeta.
  assert (E : (i <? length (r :: rs))%nat = true) by now apply Nat.ltb_lt.
  rewrite E. now rewrite (nth_indep (r :: rs) r d Hi).
Qed.

(** X11.  Endpoints are removed from the list while the [for] loop
    iterates over it: when the endpoint at the position of the iterator is
    removed, the endpoint that followed it takes its place and is skipped
    in this pass.  With distinct endpoints [.. a, b, c ..] and the
    iterator on [a], two closures in a row remove [a] and [c]; [b] stays
    active and is polled again only in a later pass. *)
Theorem wait_removal_skips_next :
  forall (s : state) (pre post : list conn) (a b c : conn) (x y : bool)
         (rest : list observation),
    _readers (self s) = Some (pre ++ a :: b :: c :: post) ->
    NoDup (pre ++ a :: b :: c :: post) ->
    wait_loop (EndOfFile x :: EndOfFile y :: rest) (length pre) s =
    wait_loop rest (S (S (length pre))) (set_readers (pre ++ b :: post) s).
Proof.
  intros s pre post a b c x y rest Hr Hnd.
  assert (Ha : ~ In a pre).
  { intro H. apply NoDup_remove_2 in Hnd. apply Hnd. apply in_or_app. now left. }
  assert (Hc : ~ In c (pre ++ [b])).
  { replace (pre ++ a :: b :: c :: post) with ((pre ++ [a; b]) ++ c :: post) in Hnd
      by (rewrite <- app_assoc; reflexivity).
    apply NoDup_remove_2 in Hnd. intro H. apply Hnd.
    apply in_or_app. left. apply in_app_or in H as [H|H].
    - apply in_or_app. now left.
    - apply in_or_app. right. simpl in *. tauto. }
  rewrite (wait_loop_eof_step x _ _ s _ a Hr)
    by (rewrite length_app; simpl; lia).
  rewrite app_nth2, Nat.sub_diag by lia. simpl nth.
  rewrite (remove_first_app a pre _ Ha).
  rewrite (wait_loop_eof_step y rest (S (length pre))
             (set_readers (pre ++ b :: c :: post) s)
             (pre ++ b :: c :: post) a eq_refl)
    by (rewrite length_app; simpl; lia).
  replace (nth (S (length pre)) (pre ++ b :: c :: post) a) with c.
  2:{ rewrite app_nth2 by lia. replace (S (length pre) - length pre)%nat with 1%nat by lia.
      reflexivity. }
  replace (pre ++ b :: c :: post) with ((pre ++ [b]) ++ c :: post)
    by (rewrite <- app_assoc; reflexivity).
  rewrite (remove_first_app c _ _ Hc), <- app_assoc. reflexivity.
Qed.

Lemma wait_removal_skips_next_witness :
  wait_loop [EndOfFile false; EndOfFile true; NoData] (length (@nil conn))
            (set_readers ([] ++ [0; 2; 4; 6]%nat) polling) =
  wait_loop [NoData] 2 (set_readers ([] ++ [2; 6]%nat)
                                    (set_readers ([] ++ [0; 2; 4; 6]%nat) polling)).
Proof.
  apply (wait_removal_skips_next (set_readers ([] ++ [0; 2; 4; 6]%nat) polling)
           [] [6%nat] 0%nat 2%nat 4%nat false true [NoData] eq_refl).
  repeat constructor; simpl; intuition discriminate.
Defined.

(** X12.  Whatever is observed, the wait loop never adds an endpoint to
    the active set: the endpoints left are among those it started with,
    at most one is removed per end of file, and a progress message
    removes none. *)
Theorem wait_readers_only_shrink :
  forall (obs : list observation) (i : nat) (s : state) (rs : list conn),
    _readers (self s) = Some rs ->
    exists rs',
      _readers (self (final (wait_loop obs i s))) = Some rs' /\
      incl rs' rs /\
      (length rs' <= length rs <= length rs' + closures obs)%nat.
Proof.
  induction obs as [|o obs IH]; intros i s rs Hr.
  - exists rs. simpl. rewrite Hr.
    destruct rs; simpl; rewrite ?Hr; repeat split; auto using incl_refl; lia.
  - simpl. rewrite Hr. destruct rs as [|r rs0].
    + exists []. simpl. rewrite Hr. repeat split; auto using incl_refl; lia.
    + destruct o as [|[p pid| |]|abrupt|e|k].
      * destruct (IH (S (if (i <? length (r :: rs0))%nat then i else 0%nat)) s
                     (r :: rs0) Hr) as (rs' & E & I & L).
        exists rs'. auto.
      * destruct (progress_reporter_frame p pid s) as (_ & Hrd & _).
        destruct (_progress_reporter p pid s) as [[] s1|e s1|b s1]; simpl in Hrd.
        -- destruct (IH (S (if (i <? length (r :: rs0))%nat then i else 0%nat)) s1
                        (r :: rs0)) as (rs' & E & I & L); [congruence|].
           exists rs'. auto.
        -- exists (r :: rs0). simpl. split; [congruence|].
           split; [apply incl_refl|lia].
        -- exists (r :: rs0). simpl. split; [congruence|].
           split; [apply incl_refl|lia].
      * exists (r :: rs0). simpl. rewrite Hr. split; auto.
        split; [apply incl_refl|lia].
      * exists (r :: rs0). simpl. rewrite Hr. split; auto.
        split; [apply incl_refl|lia].
      * set (i' := if (i <? length (r :: rs0))%nat then i else 0%nat).
        set (reader := nth i' (r :: rs0) r).
        assert (Hin : In reader (r :: rs0)).
        { apply nth_In. subst i'.
          destruct (i <? length (r :: rs0))%nat eqn:E.
          - now apply Nat.ltb_lt in E.
          - simpl. lia. }
        destruct (IH (S i') (set_readers (remove_first reader (r :: rs0)) s)
                     (remove_first reader (r :: rs0)) eq_refl) as (rs' & E & I & L).
        exists rs'. split; [exact E|]. split.
        -- eapply incl_tran; [exact I|apply remove_first_incl].
        -- rewrite (remove_first_length _ _ Hin) in L. simpl in *. lia.
      * exists (r :: rs0). simpl. rewrite Hr. split; auto.
        split; [apply incl_refl|lia].
      * destruct (IH i (mark_exited k s) (r :: rs0) Hr) as (rs' & E & I & L).
        exists rs'. auto.
Qed.

Lemma wait_readers_only_shrink_witness :
  exists rs',
    _readers (self (final (wait_loop [Data (Pair 1 0); EndOfFile true] 0 polling))) =
    Some rs' /\
    incl rs' [0%nat] /\
    (length rs' <= length [0%nat]
     <= length rs' + closures [Data (Pair 1 0); EndOfFile true])%nat.
Proof.
  apply (wait_readers_only_shrink [Data (Pair 1 0); EndOfFile true] 0 polling [0%nat]
           eq_refl).
Defined.

(** ** The worker *)

Lemma worker_call_open (j : _Job) (f : work) :
  forall snt : list (Q * Z),
    worker_call f (mkWorker j false snt) =
    (result_of f,
     mkWorker j false (snt ++ map (fun p => (p, id j)) (reports_of f))).
Proof.
  induction f as [|e|p k IH]; intro snt; simpl.
  - now rewrite app_nil_r.
  - now rewrite app_nil_r.
  - rewrite (IH None), <- app_assoc. reflexivity.
Qed.

(** X13.  In a worker whose write end is open, [_Job.run] sends one
    message per call of the callback, in the order of the calls, each
    message pairing the reported value with the id of the job; it closes
    the write end exactly when the work function returns. *)
Theorem worker_run_sends_in_order :
  forall w : worker,
    writer_closed w = false ->
    run w =
    (result_of (func (job w)),
     mkWorker (job w)
              (match result_of (func (job w)) with None => true | Some _ => false end)
              (sent w ++ map (fun p => (p, id (job w))) (reports_of (func (job w))))).
Proof.
  intros [j c snt] Hc. simpl in Hc. subst c. unfold run. simpl.
  rewrite worker_call_open.
  destruct (result_of (func j)); reflexivity.
Qed.

Lemma worker_run_sends_in_order_witness :
  let w := mkWorker (_Job__init__ 7 2
                       (Report (1 # 2) (propagate (Report 1 (propagate Done))))
                       0%nat 1%nat) false [] in
  run w = (None, mkWorker (job w) true [((1 # 2)%Q, 7); (1%Q, 7)]).
Proof.
  intro w. apply (worker_run_sends_in_order w). reflexivity.
Defined.

Lemma worker_call_closed (j : _Job) (f : work) :
  forall snt : list (Q * Z),
    snd (worker_call f (mkWorker j true snt)) = mkWorker j true snt.
Proof.
  induction f as [|e|p k IH]; intro snt; simpl; auto.
Qed.

(** X14.  In a worker whose copy of the write end is already closed,
    every call of the callback raises [OSError] and nothing is ever sent,
    whatever the work function does; a work function that reports and
    does not handle the error makes [run] raise it. *)
Theorem worker_run_closed_writer_sends_nothing :
  forall w : worker,
    writer_closed w = true ->
    sent (snd (run w)) = sent w /\
    job (snd (run w)) = job w /\
    (forall p, send p w = (Some OSError, w)) /\
    (forall p k, func (job w) = Report p (propagate k) -> run w = (Some OSError, w)).
Proof.
  intros [j c snt] Hc. simpl in Hc. subst c.
  pose proof (worker_call_closed j (func j) snt) as H.
  repeat split.
  - unfold run. simpl.
    destruct (worker_call (func j) (mkWorker j true snt)) as [[e|] w'];
      simpl in *; subst w'; reflexivity.
  - unfold run. simpl.
    destruct (worker_call (func j) (mkWorker j true snt)) as [[e|] w'];
      simpl in *; subst w'; reflexivity.
  - intros p k Hf. unfold run. simpl in *. rewrite Hf. reflexivity.
Qed.

Lemma worker_run_closed_writer_sends_nothing_witness :
  let w := mkWorker (_Job__init__ 0 1 (Report 1 (propagate Done)) 0%nat 1%nat) true [] in
  sent (snd (run w)) = [] /\ run w = (Some OSError, w).
Proof.
  intro w.
  destruct (worker_run_closed_writer_sends_nothing w eq_refl) as (A & _ & _ & B).
  split; [exact A|]. apply (B 1%Q Done). reflexivity.
Defined.

(** ** ozflux_logging *)

Lemma string_length_append (a b : string) :
  String.length (a ++ b) = (String.length a + String.length b)%nat.
Proof.
  induction a as [|c a IH]; simpl; auto.
Qed.

Lemma string_append_assoc (a b c : string) :
  ((a ++ b) ++ c = a ++ (b ++ c))%string.
Proof.
  induction a as [|x a IH]; simpl; [reflexivity|now rewrite IH].
Qed.

(** X15.  [log] raises only for a warning when warnings are errors; it
    then raises [ValueError] before anything is written, whatever the log
    level is, even a level at which the warning would not be shown. *)
Theorem log_raises_only_for_warnings_as_errors :
  forall (msg : string) (l : ozflux_logging.LogLevel) (g : ozflux_logging.globals),
    (l = ozflux_logging.WARNING /\ ozflux_logging._warnings_as_errors g = true ->
     ozflux_logging.log msg l g = ozflux_logging.Err ValueError g) /\
    (l <> ozflux_logging.WARNING \/ ozflux_logging._warnings_as_errors g = false ->
     raised (ozflux_logging.log msg l g) = None).
Proof.
  intros msg l g. split.
  - intros (-> & H). unfold ozflux_logging.log. simpl. now rewrite H.
  - intros H. unfold ozflux_logging.log.
    assert (E : ozflux_logging.is_warning l && ozflux_logging._warnings_as_errors g = false).
    { destruct H as [H|H]; [|rewrite H; apply andb_false_r].
      destruct l; simpl; auto. congruence. }
    rewrite E.
    destruct (ozflux_logging.value l <=?
              ozflux_logging.value (ozflux_logging._log_level g)); reflexivity.
Qed.

Lemma log_raises_only_for_warnings_as_errors_witness :
  let g := ozflux_logging.set_log_level ozflux_logging.NONE
             (ozflux_logging.set_warnings_as_errors true logging_at_import) in
  ozflux_logging.log_warning "w" g = ozflux_logging.Err ValueError g /\
  raised (ozflux_logging.log_error "e" g) = None.
Proof.
  intro g.
  destruct (log_raises_only_for_warnings_as_errors "w" ozflux_logging.WARNING g) as (A & _).
  destruct (log_raises_only_for_warnings_as_errors "e" ozflux_logging.ERROR g) as (_ & B).
  split.
  - apply A. split; reflexivity.
  - apply B. left. discriminate.
Defined.

Lemma print_streams (text : string) (f : ozflux_logging.stream) (e : string)
      (g : ozflux_logging.globals) :
  match f with
  | ozflux_logging.Stdout =>
      ozflux_logging.stdout (ozflux_logging.print text f e g) =
      (ozflux_logging.stdout g ++ text ++ e)%string /\
      ozflux_logging.stderr (ozflux_logging.print text f e g) = ozflux_logging.stderr g
  | ozflux_logging.Stderr =>
      ozflux_logging.stderr (ozflux_logging.print text f e g) =
      (ozflux_logging.stderr g ++ text ++ e)%string /\
      ozflux_logging.stdout (ozflux_logging.print text f e g) = ozflux_logging.stdout g
  end.
Proof. destruct f; split; reflexivity. Qed.

(** What [log] puts in front of a message. *)
Lemma decorate_suffix (msg : string) (l : ozflux_logging.LogLevel)
      (g : ozflux_logging.globals) :
  exists pfx : string, ozflux_logging.decorate msg l g = (pfx ++ msg)%string.
Proof.
  unfold ozflux_logging.decorate.
  destruct (ozflux_logging._mpi_pfx g), (ozflux_logging.is_warning l).
  - exists ("[node " ++ ozflux_logging.decimal (ozflux_logging.rank g) ++ "] "
            ++ "WARNING: ")%string.
    now rewrite !string_append_assoc.
  - exists ("[node " ++ ozflux_logging.decimal (ozflux_logging.rank g) ++ "] ")%string.
    now rewrite !string_append_assoc.
  - exists "WARNING: "%string. reflexivity.
  - exists ""%string. reflexivity.
Qed.

Lemma log_text (a sp cr d nl : string) :
  ((a ++ sp ++ cr) ++ d ++ nl = a ++ sp ++ cr ++ d ++ nl)%string.
Proof. now rewrite !string_append_assoc. Qed.

(** X16.  A message that [log] accepts is written if and only if its
    level is at most the log level.  It is then written to one stream
    only, [stderr] for an error and [stdout] otherwise, after the
    [MAX_PROGRESS_MSG_LEN] spaces and the carriage return of
    [_clear_line]; the text written ends with the message itself followed
    by a newline, whatever has been put in front of it. *)
Theorem log_output :
  forall (msg : string) (l : ozflux_logging.LogLevel) (g g' : ozflux_logging.globals),
    ozflux_logging.log msg l g = ozflux_logging.Ok g' ->
    (ozflux_logging.value (ozflux_logging._log_level g) < ozflux_logging.value l ->
     g' = g) /\
    (ozflux_logging.value l <= ozflux_logging.value (ozflux_logging._log_level g) ->
     exists pfx : string,
       let text := (ozflux_logging.spaces ozflux_logging.MAX_PROGRESS_MSG_LEN
                    ++ ozflux_logging.carriage_return
                    ++ (pfx ++ msg) ++ ozflux_logging.newline)%string in
       (l = ozflux_logging.ERROR ->
        ozflux_logging.stderr g' = (ozflux_logging.stderr g ++ text)%string /\
        ozflux_logging.stdout g' = ozflux_logging.stdout g) /\
       (l <> ozflux_logging.ERROR ->
        ozflux_logging.stdout g' = (ozflux_logging.stdout g ++ text)%string /\
        ozflux_logging.stderr g' = ozflux_logging.stderr g)).
Proof.
  intros msg l g g' H. unfold ozflux_logging.log in H.
  destruct (ozflux_logging.is_warning l && ozflux_logging._warnings_as_errors g);
    [discriminate|].
  destruct (ozflux_logging.value l <=?
            ozflux_logging.value (ozflux_logging._log_level g)) eqn:E.
  - apply Z.leb_le in E. split; [lia|]. intros _.
    cbv zeta in H. injection H as <-.
    destruct (decorate_suffix msg l g) as (pfx & Hd). rewrite Hd.
    exists pfx. cbv zeta. unfold ozflux_logging._clear_line. split.
    + intros ->. cbn [ozflux_logging.is_error].
      destruct (print_streams (pfx ++ msg) ozflux_logging.Stderr ozflux_logging.newline
                  (ozflux_logging.print
                     (ozflux_logging.spaces ozflux_logging.MAX_PROGRESS_MSG_LEN)
                     ozflux_logging.Stderr ozflux_logging.carriage_return g)) as (A & B).
      rewrite A, B. cbn [ozflux_logging.print ozflux_logging.stderr ozflux_logging.stdout].
      split; [apply log_text|reflexivity].
    + intros Hl. assert (Hf : ozflux_logging.is_error l = false)
        by (destruct l; simpl; congruence).
      rewrite Hf.
      destruct (print_streams (pfx ++ msg) ozflux_logging.Stdout ozflux_logging.newline
                  (ozflux_logging.print
                     (ozflux_logging.spaces ozflux_logging.MAX_PROGRESS_MSG_LEN)
                     ozflux_logging.Stdout ozflux_logging.carriage_return g)) as (A & B).
      rewrite A, B. cbn [ozflux_logging.print ozflux_logging.stderr ozflux_logging.stdout].
      split; [apply log_text|reflexivity].
  - apply Z.leb_gt in E. split; [|lia]. intros _. now injection H.
Qed.

Lemma log_output_witness :
  let g := ozflux_logging.set_log_level ozflux_logging.INFORMATION logging_at_import in
  exists g',
    ozflux_logging.log_error "e" g = ozflux_logging.Ok g' /\
    exists pfx : string,
      ozflux_logging.stderr g' =
      (ozflux_logging.stderr g
       ++ ozflux_logging.spaces ozflux_logging.MAX_PROGRESS_MSG_LEN
       ++ ozflux_logging.carriage_return
       ++ (pfx ++ "e") ++ ozflux_logging.newline)%string /\
      ozflux_logging.stdout g' = ozflux_logging.stdout g.
Proof.
  intro g. eexists. split; [reflexivity|].
  destruct (log_output "e" ozflux_logging.ERROR g _ eq_refl) as (_ & H).
  destruct H as (pfx & A & _); [simpl; lia|].
  exists pfx. apply A. reflexivity.
Defined.

Lemma log_warning_cases (msg : string) (g : ozflux_logging.globals) :
  (ozflux_logging._warnings_as_errors g = true /\
   ozflux_logging.log_warning msg g = ozflux_logging.Err ValueError g) \/
  (ozflux_logging._warnings_as_errors g = false /\
   exists g1,
     ozflux_logging.log_warning msg g = ozflux_logging.Ok g1 /\
     ozflux_logging._show_progress g1 = ozflux_logging._show_progress g /\
     ozflux_logging._progress_end g1 = ozflux_logging._progress_end g /\
     ozflux_logging.stderr g1 = ozflux_logging.stderr g).
Proof.
  unfold ozflux_logging.log_warning, ozflux_logging.log.
  destruct (ozflux_logging._warnings_as_errors g); simpl andb; cbv iota.
  - left. auto.
  - right. split; [reflexivity|].
    destruct (ozflux_logging.value ozflux_logging.WARNING <=?
              ozflux_logging.value (ozflux_logging._log_level g));
      eexists; split; try reflexivity; repeat split.
Qed.




(** One second divided by a progress of 1e-15 is no [timedelta]. *)
Example log_progress_overflow :
  raised (ozflux_logging.log_progress (1 # 1000000000000000) 1000000
            "0.00" "0:00:01" "" logging_at_import) = Some OverflowError /\
  raised (ozflux_logging.log_progress (1 # 1000000000000000) 0
            "0.00" "0:00:00" "0:00:00" logging_at_import) = None.
Proof. vm_compute. split; reflexivity. Qed.

(** X18.  [log_progress] never writes to [stderr].  With a progress of at
    most 1 it writes nothing at all when the display of progress is off,
    and, when the display is on and the estimate of the remaining time is
    obtained, it appends to [stdout] the progress report followed by
    [_progress_end]. *)
Theorem log_progress_display :
  forall (q : Q) (now : Z) (percent elapsed remaining : string)
         (g : ozflux_logging.globals),
    let r := ozflux_logging.log_progress q now percent elapsed remaining g in
    ozflux_logging.stderr (globals_of r) = ozflux_logging.stderr g /\
    (Qle_bool q 1 = true ->
     (ozflux_logging._show_progress g = false -> globals_of r = g) /\
     (ozflux_logging._show_progress g = true ->
      forall t, remaining_time now q = inr t ->
      raised r = None /\
      ozflux_logging.stdout (globals_of r) =
      (ozflux_logging.stdout g
       ++ ozflux_logging.progress_line percent elapsed remaining
       ++ ozflux_logging._progress_end g)%string)).
Proof.
  intros q now pct el rem g r. subst r. unfold ozflux_logging.log_progress. split.
  - destruct (Qle_bool q 1); simpl negb; cbv iota.
    + destruct (remaining_time now q); [reflexivity|].
      destruct (ozflux_logging._show_progress g); reflexivity.
    + destruct (log_warning_cases "Attempted to display progress > 1" g)
        as [(Hf & E)|(Hf & g1 & E & _ & _ & Herr)]; rewrite E; [reflexivity|].
      destruct (remaining_time now q); [exact Herr|].
      destruct (ozflux_logging._show_progress g1); simpl; exact Herr.
  - intro Hle. rewrite Hle. simpl negb. cbv iota. split.
    + intro Hs. rewrite Hs. destruct (remaining_time now q); reflexivity.
    + intros Hs t Ht. rewrite Hs, Ht. split; reflexivity.
Qed.

Lemma log_progress_display_witness :
  let g := ozflux_logging.set_show_progress true logging_at_import in
  let r := ozflux_logging.log_progress (1 # 2) 1000000 "50.00" "0:00:01" "0:00:01" g in
  raised r = None /\
  ozflux_logging.stdout (globals_of r) =
  (ozflux_logging.stdout g
   ++ ozflux_logging.progress_line "50.00" "0:00:01" "0:00:01"
   ++ ozflux_logging._progress_end g)%string.
Proof.
  intros g r.
  destruct (log_progress_display (1 # 2) 1000000 "50.00" "0:00:01" "0:00:01" g) as (_ & H).
  destruct (H eq_refl) as (_ & H'). apply (H' eq_refl 1000000). reflexivity.
Defined.

(** X19.  Every progress report is longer than the run of spaces that
    [_clear_line] writes: the literal parts of the report alone are 49
    characters, against the [MAX_PROGRESS_MSG_LEN = 17] spaces with which
    [log] overwrites the line before it writes a message. *)
Theorem progress_line_longer_than_clear_line :
  forall percent elapsed remaining : string,
    (String.length (ozflux_logging.progress_line percent elapsed remaining) =
     49 + String.length percent + String.length elapsed + String.length remaining)%nat /\
    String.length (ozflux_logging.spaces ozflux_logging.MAX_PROGRESS_MSG_LEN) = 17%nat /\
    (String.length (ozflux_logging.spaces ozflux_logging.MAX_PROGRESS_MSG_LEN) <
     String.length (ozflux_logging.progress_line percent elapsed remaining))%nat.
Proof.
  intros pct el rem.
  assert (H : String.length (ozflux_logging.progress_line pct el rem) =
              (49 + String.length pct + String.length el + String.length rem)%nat).
  { unfold ozflux_logging.progress_line. rewrite !string_length_append. simpl. lia. }
  split; [exact H|]. split; [reflexivity|]. rewrite H. simpl. lia.
Qed.

(** ** csv2netcdf: the chunked writes *)

Lemma tiles_covered (l : list (Z * Z)) :
  forall lo hi, tiles lo hi l -> forall x, covered l x <-> lo <= x < hi.
Proof.
  induction l as [|[a b] l IH]; intros lo hi H x; simpl in H.
  - subst. split; [intros (r & [] & _)|lia].
  - destruct H as (Ha & Hab & Ht). simpl in *. subst a. split.
    + intros (r & [<-|Hin] & Hr); simpl in *.
      * assert (b <= hi); [|lia].
        clear -Ht. revert b Ht. induction l as [|[c d] l IH']; simpl; intros b Ht.
        -- lia.
        -- destruct Ht as (-> & Hcd & Ht). simpl in *. specialize (IH' _ Ht). lia.
      * assert (covered l x) as Hc by (exists r; auto).
        apply (IH _ _ Ht) in Hc. lia.
    + intro Hx. destruct (Z_lt_ge_dec x b) as [Hlt|Hge].
      * exists (lo, b). simpl. split; [now left|lia].
      * assert (covered l x) as (r & Hin & Hr) by (apply (IH _ _ Ht); lia).
        exists r. split; [now right|exact Hr].
Qed.

Lemma ceil_spec (size c : Z) :
  0 < c -> 0 <= size ->
  let N := (size + c - 1) / c in
  0 <= N /\ size <= N * c /\ (N - 1) * c < size.
Proof.
  intros Hc Hs N.
  pose proof (Z.div_mod (size + c - 1) c ltac:(lia)) as E.
  pose proof (Z.mod_pos_bound (size + c - 1) c Hc) as B.
  fold N in E. split; [apply Z.div_pos; lia|]. nia.
Qed.

(** The slices produced from position [k] on, [n] of them being left. *)
Lemma slices_tile (size c : Z) :
  0 < c -> 0 <= size ->
  forall (n k : nat),
    Z.of_nat (k + n) = (size + c - 1) / c ->
    tiles (Z.min size (Z.of_nat k * c)) size
          (map (fun i => (i, Z.min size (i + c)))
               (map (fun k => 0 + Z.of_nat k * c) (seq k n))) /\
    Forall (fun r => snd r - fst r <= c)
           (map (fun i => (i, Z.min size (i + c)))
                (map (fun k => 0 + Z.of_nat k * c) (seq k n))).
Proof.
  intros Hc Hs. pose proof (ceil_spec size c Hc Hs) as (HN0 & HN1 & HN2).
  induction n as [|n IH]; intros k Hk; cbn [seq map tiles fst snd].
  - split; [|constructor]. rewrite Nat.add_0_r in Hk. rewrite Hk. lia.
  - assert (Hlt : Z.of_nat k * c < size) by nia.
    destruct (IH (S k)) as (T & F); [rewrite <- Hk; lia|].
    split.
    + split; [lia|]. split; [lia|].
      replace (Z.min size (0 + Z.of_nat k * c + c))
        with (Z.min size (Z.of_nat (S k) * c)) by (f_equal; lia).
      exact T.
    + constructor; [cbn [fst snd]; lia|exact F].
Qed.

(** X20.  For a positive chunk size, the slices that the loop of
    [create_coordinate] writes follow one another from 0 to the size of
    the dimension: every index of the dimension lies in exactly the
    stretch they cover, each slice is non-empty and no longer than the
    chunk size.  A chunk size of zero makes [range] raise [ValueError]. *)
Theorem create_coordinate_slices_cover :
  forall size chunk_size : Z,
    0 < chunk_size ->
    0 <= size ->
    exists l,
      create_coordinate_slices size chunk_size = inr l /\
      tiles 0 size l /\
      Forall (fun r => snd r - fst r <= chunk_size) l /\
      (forall x, covered l x <-> 0 <= x < size) /\
      create_coordinate_slices size 0 = inl ValueError.
Proof.
  intros size c Hc Hs. unfold create_coordinate_slices, range3.
  assert (E0 : (c =? 0) = false) by (apply Z.eqb_neq; lia).
  assert (E1 : (0 <? c) = true) by (apply Z.ltb_lt; lia).
  rewrite E0, E1. eexists. split; [reflexivity|].
  pose proof (ceil_spec size c Hc Hs) as (HN0 & _).
  destruct (slices_tile size c Hc Hs (Z.to_nat ((size - 0 + c - 1) / c)) 0) as (T & F).
  { replace (size - 0 + c - 1) with (size + c - 1) by lia. simpl. lia. }
  replace (Z.min size (Z.of_nat 0 * c)) with 0 in T by lia.
  split; [exact T|]. split; [exact F|]. split; [|reflexivity].
  apply tiles_covered. exact T.
Qed.

Lemma create_coordinate_slices_cover_witness :
  exists l,
    create_coordinate_slices 10 3 = inr l /\
    tiles 0 10 l /\
    (forall x, covered l x <-> 0 <= x < 10).
Proof.
  destruct (create_coordinate_slices_cover 10 3) as (l & E & T & _ & C & _);
    [lia|lia|].
  exists l. auto.
Defined.

Lemma ranges_tile (size c : Z) :
  0 < c -> 0 <= size ->
  forall (n k : nat),
    Z.of_nat (k + n) = size / c ->
    tiles (Z.of_nat k * c) (size / c * c)
          (map (fun i => (i * c, Z.min size (i * c + c)))
               (map Z.of_nat (seq k n))) /\
    Forall (fun r => snd r - fst r = c)
           (map (fun i => (i * c, Z.min size (i * c + c)))
                (map Z.of_nat (seq k n))).
Proof.
  intros Hc Hs.
  pose proof (Z.div_mod size c ltac:(lia)) as E.
  pose proof (Z.mod_pos_bound size c Hc) as B.
  induction n as [|n IH]; intros k Hk; cbn [seq map tiles fst snd].
  - split; [|constructor]. rewrite Nat.add_0_r in Hk. now rewrite Hk.
  - assert (Hle : Z.of_nat k * c + c <= size) by nia.
    destruct (IH (S k)) as (T & F); [rewrite <- Hk; lia|].
    rewrite Z.min_r by lia. split.
    + split; [reflexivity|]. split; [lia|].
      replace (Z.of_nat k * c + c) with (Z.of_nat (S k) * c) by lia. exact T.
    + constructor; [cbn [fst snd]; lia|exact F].
Qed.

(** The ranges of [copy_data] along one dimension. *)
Lemma copy_data_ranges_tile (size c : Z) :
  0 < c -> 0 <= size ->
  exists l,
    copy_data_ranges size c = inr l /\
    tiles 0 (size / c * c) l /\
    Forall (fun r => snd r - fst r = c) l /\
    (forall x, covered l x <-> 0 <= x < size / c * c).
Proof.
  intros Hc Hs. unfold copy_data_ranges, floordiv, range1.
  assert (E0 : (c =? 0) = false) by (apply Z.eqb_neq; lia).
  rewrite E0. eexists. split; [reflexivity|].
  assert (HN : 0 <= size / c) by (apply Z.div_pos; lia).
  destruct (ranges_tile size c Hc Hs (Z.to_nat (size / c)) 0) as (T & F);
    [simpl; lia|].
  simpl Z.of_nat in T. rewrite Z.mul_0_l in T.
  split; [exact T|]. split; [exact F|]. exact (tiles_covered _ _ _ T).
Qed.

(** X21.  Along a dimension of [size] entries written in chunks of a
    positive [chunk_size], [copy_data] goes through [size // chunk_size]
    ranges of exactly [chunk_size] indices each, which follow one another
    from 0: the indices it reaches are those below
    [(size // chunk_size) * chunk_size].  When [size] is not a multiple of
    the chunk size, the last index of the dimension is in none of the
    ranges; a chunk size of zero raises [ZeroDivisionError]. *)
Theorem copy_data_ranges_cover :
  forall size chunk_size : Z,
    0 < chunk_size ->
    0 <= size ->
    exists l,
      copy_data_ranges size chunk_size = inr l /\
      tiles 0 (size / chunk_size * chunk_size) l /\
      Forall (fun r => snd r - fst r = chunk_size) l /\
      (forall x, covered l x <-> 0 <= x < size / chunk_size * chunk_size) /\
      (size mod chunk_size <> 0 -> ~ covered l (size - 1)) /\
      copy_data_ranges size 0 = inl ZeroDivisionError.
Proof.
  intros size c Hc Hs.
  destruct (copy_data_ranges_tile size c Hc Hs) as (l & E & T & F & C).
  exists l. split; [exact E|]. split; [exact T|]. split; [exact F|].
  split; [exact C|]. split; [|reflexivity].
  intros Hm Hcov. apply C in Hcov.
  pose proof (Z.div_mod size c ltac:(lia)) as D.
  pose proof (Z.mod_pos_bound size c Hc) as B. nia.
Qed.

Lemma copy_data_ranges_cover_witness :
  exists l,
    copy_data_ranges 10 3 = inr l /\
    (forall x, covered l x <-> 0 <= x < 10 / 3 * 3) /\
    ~ covered l (10 - 1).
Proof.
  destruct (copy_data_ranges_cover 10 3) as (l & E & _ & _ & C & N & _);
    [lia|lia|].
  exists l. split; [exact E|]. split; [exact C|]. apply N. discriminate.
Defined.

Lemma written_iff_covered (ri rj rk : list (Z * Z)) (x y z : Z) :
  written (copy_data_blocks ri rj rk) x y z <->
  covered ri x /\ covered rj y /\ covered rk z.
Proof.
  unfold written, copy_data_blocks, covered. split.
  - intros (ir & jr & kr & Hin & Hx & Hy & Hz).
    apply in_flat_map in Hin as (ir' & Hi & Hin).
    apply in_flat_map in Hin as (jr' & Hj & Hin).
    apply in_map_iff in Hin as (kr' & Heq & Hk).
    injection Heq as -> -> ->. eauto 10.
  - intros ((ir & Hi & Hx) & (jr & Hj & Hy) & (kr & Hk & Hz)).
    exists ir, jr, kr. split; [|auto].
    apply in_flat_map. exists ir. split; [exact Hi|].
    apply in_flat_map. exists jr. split; [exact Hj|].
    apply in_map_iff. exists kr. auto.
Qed.

(** X22.  With positive chunk sizes, the blocks that the three nested
    loops of [copy_data] write for a variable contain the cell
    [(x, y, z)] if and only if each of its indices is below the largest
    multiple of the chunk size that fits in the size of its dimension:
    the entries beyond that multiple are not copied. *)
Theorem copy_data_blocks_cover :
  forall (s0 s1 s2 c0 c1 c2 : Z),
    0 < c0 -> 0 < c1 -> 0 < c2 ->
    0 <= s0 -> 0 <= s1 -> 0 <= s2 ->
    exists ri rj rk,
      copy_data_ranges s0 c0 = inr ri /\
      copy_data_ranges s1 c1 = inr rj /\
      copy_data_ranges s2 c2 = inr rk /\
      forall x y z,
        written (copy_data_blocks ri rj rk) x y z <->
        0 <= x < s0 / c0 * c0 /\ 0 <= y < s1 / c1 * c1 /\ 0 <= z < s2 / c2 * c2.
Proof.
  intros s0 s1 s2 c0 c1 c2 H0 H1 H2 G0 G1 G2.
  destruct (copy_data_ranges_tile s0 c0 H0 G0) as (ri & E0 & _ & _ & C0).
  destruct (copy_data_ranges_tile s1 c1 H1 G1) as (rj & E1 & _ & _ & C1).
  destruct (copy_data_ranges_tile s2 c2 H2 G2) as (rk & E2 & _ & _ & C2).
  exists ri, rj, rk. repeat split; auto;
    try (apply written_iff_covered in H; destruct H as (A & B & C);
         first [apply C0 in A | idtac]; first [apply C1 in B | idtac];
         first [apply C2 in C | idtac]; lia).
  intros (A & B & C). apply written_iff_covered.
  split; [apply C0|split; [apply C1|apply C2]]; assumption.
Qed.

Lemma copy_data_blocks_cover_witness :
  exists ri rj rk,
    copy_data_ranges 4 2 = inr ri /\
    copy_data_ranges 5 2 = inr rj /\
    copy_data_ranges 10 3 = inr rk /\
    forall x y z,
      written (copy_data_blocks ri rj rk) x y z <->
      0 <= x < 4 / 2 * 2 /\ 0 <= y < 5 / 2 * 2 /\ 0 <= z < 10 / 3 * 3.
Proof.
  apply (copy_data_blocks_cover 4 5 10 2 2 3); lia.
Defined.

